(** * Compressed Symmetry Theory demo: the C4 action on n x n binary grids

    A shallow embedding of [cst_demo.py].  Python integers are [Z], tuples and
    lists are [list], and a Python call that may raise is a computation in the
    [result] monad below, so that an [IndexError] or a [ZeroDivisionError] of
    the program is a value of the model. *)

From Stdlib Require Import ZArith List Bool Lia Permutation ListSet.
Import ListNotations.
Local Open Scope Z_scope.

(** ** Exceptions and the error monad *)

Inductive exn : Type :=
| IndexError
| ZeroDivisionError
| OverflowError
| ValueError.

Inductive result (A : Type) : Type :=
| Return (a : A)
| Raise (e : exn).

Arguments Return {A} a.
Arguments Raise {A} e.

Definition bind {A B : Type} (c : result A) (k : A -> result B) : result B :=
  match c with
  | Return a => k a
  | Raise e => Raise e
  end.

Notation "'do' x <- c ; k" := (bind c (fun x => k))
  (at level 10, x name, c at level 100, k at level 200).

(** ** Python built-ins used by the program *)

(** [range(n)]: empty when [n <= 0]. *)
Definition range (n : Z) : list Z := map Z.of_nat (seq 0 (Z.to_nat n)).

(** [vec[i]]: negative indices count from the end, anything outside
    [-len, len) raises [IndexError]. *)
Definition py_index {A : Type} (vec : list A) (i : Z) : result A :=
  let len := Z.of_nat (length vec) in
  let j := if i <? 0 then i + len else i in
  if (j <? 0) || (len <=? j) then Raise IndexError
  else match nth_error vec (Z.to_nat j) with
       | Some v => Return v
       | None => Raise IndexError
       end.

(** Comparison [a < b] of two tuples of integers: the first differing
    position decides, a proper prefix is smaller. *)
Fixpoint tuple_ltb (a b : list Z) : bool :=
  match a, b with
  | [], [] => false
  | [], _ :: _ => true
  | _ :: _, [] => false
  | x :: a', y :: b' => if x =? y then tuple_ltb a' b' else x <? y
  end.

(** [min(first :: rest)]: the first of the smallest items. *)
Definition py_min (first : list Z) (rest : list (list Z)) : list Z :=
  fold_left (fun cur item => if tuple_ltb item cur then item else cur) rest first.

(** [sum(x)]. *)
Definition py_sum (x : list Z) : Z := fold_left Z.add x 0.

(** ** Group action on n x n binary grids *)

Definition rotate90_indices (n : Z) : list Z :=
  flat_map (fun r => map (fun c => (n - 1 - c) * n + r) (range n)) (range n).

Fixpoint apply_map (vec : list Z) (index_map : list Z) : result (list Z) :=
  match index_map with
  | [] => Return []
  | i :: rest =>
      do v <- py_index vec i;
      do vs <- apply_map vec rest;
      Return (v :: vs)
  end.

(** The loop [for _ in range(cnt): out = apply_map(out, rot90_map)]. *)
Fixpoint rotate_loop (cnt : nat) (out : list Z) (rot90_map : list Z)
  : result (list Z) :=
  match cnt with
  | O => Return out
  | S cnt' =>
      do out' <- apply_map out rot90_map;
      rotate_loop cnt' out' rot90_map
  end.

Definition rotate (vec : list Z) (n : Z) (k : Z) (rot90_map : list Z)
  : result (list Z) :=
  rotate_loop (Z.to_nat (k mod 4)) vec rot90_map.

Definition int_to_bits (n : Z) (bits : Z) : list Z :=
  map (fun i => Z.land (Z.shiftr n (bits - 1 - i)) 1) (range bits).

Definition bits_to_int (bits : list Z) : Z :=
  fold_left (fun v b => Z.lor (Z.shiftl v 1) (Z.land b 1)) bits 0.

Definition canonical_representative (x : list Z) (n : Z) (rot90_map : list Z)
  : result (list Z) :=
  do c1 <- apply_map x rot90_map;
  do c2 <- apply_map c1 rot90_map;
  do c3 <- apply_map c2 rot90_map;
  Return (py_min x [c1; c2; c3]).

(** The set [s] of [orbit_size] is a duplicate-free list of integers. *)
Definition orbit_size (x : list Z) (n : Z) (rot90_map : list Z) : result Z :=
  let s0 := empty_set Z in
  let s1 := set_add Z.eq_dec (bits_to_int x) s0 in
  do x1 <- apply_map x rot90_map;
  let s2 := set_add Z.eq_dec (bits_to_int x1) s1 in
  do x2 <- apply_map x1 rot90_map;
  let s3 := set_add Z.eq_dec (bits_to_int x2) s2 in
  do x3 <- apply_map x2 rot90_map;
  let s4 := set_add Z.eq_dec (bits_to_int x3) s3 in
  do x4 <- apply_map x3 rot90_map;
  Return (Z.of_nat (length s4)).

(** ** Search speedup demo *)

Definition invariant_cost (x : list Z) (n : Z) : Z := py_sum x mod 5.

(** The test [best is None or c < best]. *)
Definition improves (c : Z) (best : option Z) : bool :=
  match best with
  | None => true
  | Some b => c <? b
  end.

(** The raw loop of [brute_force_search]; returning the counter is the
    [break]. *)
Fixpoint raw_scan (samples : list (list Z)) (n : Z) (best : option Z)
  (evals_raw : Z) : Z :=
  match samples with
  | [] => evals_raw
  | x :: rest =>
      let c := invariant_cost x n in
      let evals_raw := evals_raw + 1 in
      if improves c best then
        if c =? 0 then evals_raw
        else raw_scan rest n (Some c) evals_raw
      else raw_scan rest n best evals_raw
  end.

(** The orbit loop: [seen] is the set of encodings of the representatives
    evaluated so far. *)
Fixpoint orbit_scan (samples : list (list Z)) (n : Z) (rot90_map : list Z)
  (seen : set Z) (evals_orbit : Z) (best2 : option Z) : result Z :=
  match samples with
  | [] => Return evals_orbit
  | x :: rest =>
      do rep <- canonical_representative x n rot90_map;
      let rep_int := bits_to_int rep in
      if set_mem Z.eq_dec rep_int seen
      then orbit_scan rest n rot90_map seen evals_orbit best2
      else
        let seen := set_add Z.eq_dec rep_int seen in
        let c := invariant_cost rep n in
        let evals_orbit := evals_orbit + 1 in
        if improves c best2 then
          if c =? 0 then Return evals_orbit
          else orbit_scan rest n rot90_map seen evals_orbit (Some c)
        else orbit_scan rest n rot90_map seen evals_orbit best2
  end.

Definition brute_force_search (samples : list (list Z)) (n : Z)
  : result (Z * Z) :=
  let rot90_map := rotate90_indices n in
  let evals_raw := raw_scan samples n None 0 in
  do evals_orbit <- orbit_scan samples n rot90_map (empty_set Z) 0 None;
  Return (evals_raw, evals_orbit).

(** ** Floating-point arithmetic

    The floats of the program are kept abstract: a carrier with the
    operations the program uses on them.  The exceptions Python adds on top
    of the arithmetic are made explicit by the [py_truediv] functions. *)

Class Float (F : Type) : Type := {
  of_int : Z -> F;              (* [float(i)], and the literal [i.0] *)
  fadd : F -> F -> F;
  fmul : F -> F -> F;
  fdiv : F -> F -> F;           (* quotient, for a divisor that is not zero *)
  int_div : Z -> Z -> F;        (* [a / b] on integers, for [b] not zero *)
  fis_zero : F -> bool;         (* [x == 0.0] *)
  flog2 : F -> result F         (* [math.log2], [ValueError] off its domain *)
}.

(** The free reading of the interface: a float is the expression that
    computes it. *)
Inductive fexpr : Type :=
| FOfInt (i : Z)
| FAdd (a b : fexpr)
| FMul (a b : fexpr)
| FDiv (a b : fexpr)
| FIntDiv (a b : Z)
| FLog2 (a : fexpr).

#[export] Instance fexpr_Float : Float fexpr := {
  of_int := FOfInt;
  fadd := FAdd;
  fmul := FMul;
  fdiv := FDiv;
  int_div := FIntDiv;
  fis_zero := fun e => match e with FOfInt 0 => true | _ => false end;
  flog2 := fun e => Return (FLog2 e)
}.

Section Estimators.

Context {F : Type} {FO : Float F}.

(** [a / b] on two integers. *)
Definition py_truediv_int (a b : Z) : result F :=
  if b =? 0 then Raise ZeroDivisionError else Return (int_div a b).

(** [x / y] on two floats. *)
Definition py_truediv_float (x y : F) : result F :=
  if fis_zero y then Raise ZeroDivisionError else Return (fdiv x y).

(** [x / b] for a float and an integer; [float(b)] is zero exactly when [b]
    is. *)
Definition py_truediv_float_int (x : F) (b : Z) : result F :=
  if b =? 0 then Raise ZeroDivisionError else Return (fdiv x (of_int b)).

(** ** Counters

    A [Counter] is a dictionary from keys to counts; its items come in the
    order in which the keys were first inserted. *)

Section Counter.

Context {K : Type} (eq_dec : forall a b : K, {a = b} + {a <> b}).

Definition Counter : Type := list (K * Z).

(** [c[k]], which is 0 for a missing key. *)
Fixpoint counter_get (c : Counter) (k : K) : Z :=
  match c with
  | [] => 0
  | (k', v) :: c' => if eq_dec k k' then v else counter_get c' k
  end.

(** [c[k] = c.get(k, 0) + 1]. *)
Fixpoint counter_incr (c : Counter) (k : K) : Counter :=
  match c with
  | [] => [(k, 1)]
  | (k', v) :: c' =>
      if eq_dec k k' then (k', v + 1) :: c' else (k', v) :: counter_incr c' k
  end.

(** [Counter(iterable)]. *)
Definition counter_of (l : list K) : Counter := fold_left counter_incr l [].

End Counter.

Definition pair_eq_dec (a b : Z * Z) : {a = b} + {a <> b}.
Proof. decide equality; apply Z.eq_dec. Defined.

(** ** Mutual information (SMI) estimation *)

(** The loop [for (x,y), nxy in cxy.items()] with the accumulator [mi]. *)
Fixpoint mi_loop (N : Z) (cx cy : @Counter Z) (items : list ((Z * Z) * Z))
  (mi : F) : result F :=
  match items with
  | [] => Return mi
  | ((x, y), nxy) :: rest =>
      do px <- py_truediv_int (counter_get Z.eq_dec cx x) N;
      do py <- py_truediv_int (counter_get Z.eq_dec cy y) N;
      do pxy <- py_truediv_int nxy N;
      do q <- py_truediv_float pxy (fmul px py);
      do l <- flog2 q;
      mi_loop N cx cy rest (fadd mi (fmul pxy l))
  end.

Definition empirical_mi (pairs : list (Z * Z)) : result F :=
  let N := Z.of_nat (length pairs) in
  let cx := counter_of Z.eq_dec (map fst pairs) in
  let cy := counter_of Z.eq_dec (map snd pairs) in
  let cxy := counter_of pair_eq_dec pairs in
  mi_loop N cx cy cxy (of_int 0).

(** ** Compression-based SCI *)

(** [v.to_bytes(len, 'big')]. *)
Definition to_bytes (v : Z) (len : Z) : result (list Z) :=
  if len <? 0 then Raise ValueError
  else if (v <? 0) || (256 ^ len <=? v) then Raise OverflowError
  else Return (map (fun i => Z.land (Z.shiftr v (8 * (len - 1 - i))) 255)
                   (range len)).

(** [zlib.compress] is an external collaborator. *)
Variable zlib_compress : list Z -> Z -> list Z.

Definition compress_length_bytes (data : list Z) (level : Z) : Z :=
  Z.of_nat (length (zlib_compress data level)).

(** The loop of [sci_via_compression] filling the two buffers. *)
Fixpoint sci_pack (samples : list (list Z)) (n : Z) (rot90_map : list Z)
  (bytes_per : Z) (raw canon : list Z) : result (list Z * list Z) :=
  match samples with
  | [] => Return (raw, canon)
  | x :: rest =>
      let xi := bits_to_int x in
      do rep <- canonical_representative x n rot90_map;
      let ci := bits_to_int rep in
      do xb <- to_bytes xi bytes_per;
      do cb <- to_bytes ci bytes_per;
      sci_pack rest n rot90_map bytes_per (raw ++ xb) (canon ++ cb)
  end.

Definition sci_via_compression (samples : list (list Z)) (n : Z)
  (rot90_map : list Z) : result F :=
  let bits := n * n in
  let bytes_per := (bits + 7) / 8 in
  do bufs <- sci_pack samples n rot90_map bytes_per [] [];
  let L_raw := compress_length_bytes (fst bufs) 9 in
  let L_canon := compress_length_bytes (snd bufs) 9 in
  py_truediv_float_int (fmul (of_int (L_raw - L_canon)) (of_int 8))
                       (Z.of_nat (length samples)).

End Estimators.

(** The stream zlib gives for the empty buffer at level 9. *)
Definition zlib_empty_stream : list Z := [120; 218; 3; 0; 0; 0; 0; 1].

(** ** The plug-in estimate, as the specification words it *)

Section PlugIn.

Context {F : Type} {FO : Float F}.

(** The distinct members of a sequence, in the order of their first
    occurrence. *)
Fixpoint observed {K : Type} (eq_dec : forall a b : K, {a = b} + {a <> b})
  (l : list K) : list K :=
  match l with
  | [] => []
  | k :: l' =>
      k :: filter (fun k' => if eq_dec k' k then false else true)
                  (observed eq_dec l')
  end.

(** How often [k] occurs in the sample. *)
Definition count {K : Type} (eq_dec : forall a b : K, {a = b} + {a <> b})
  (l : list K) (k : K) : Z :=
  Z.of_nat (count_occ eq_dec l k).

(** An empirical frequency: a count divided by the sample size. *)
Definition frequency (cnt N : Z) : F := int_div cnt N.

(** The term [p(x,y) * log2(p(x,y) / (p(x) * p(y)))] of the pair [xy]. *)
Definition plug_in_term (pairs : list (Z * Z)) (xy : Z * Z) : result F :=
  let N := Z.of_nat (length pairs) in
  let p_xy := frequency (count pair_eq_dec pairs xy) N in
  let p_x := frequency (count Z.eq_dec (map fst pairs) (fst xy)) N in
  let p_y := frequency (count Z.eq_dec (map snd pairs) (snd xy)) N in
  do q <- py_truediv_float p_xy (fmul p_x p_y);
  do l <- flog2 q;
  Return (fmul p_xy l).

(** The sum of the terms of [keys], added to [acc] from left to right. *)
Fixpoint sum_terms (term : Z * Z -> result F) (keys : list (Z * Z)) (acc : F)
  : result F :=
  match keys with
  | [] => Return acc
  | k :: rest =>
      do t <- term k;
      sum_terms term rest (fadd acc t)
  end.

(** The plug-in estimate: the sum of the terms of the distinct observed
    pairs. *)
Definition plug_in_mi (pairs : list (Z * Z)) : result F :=
  sum_terms (plug_in_term pairs) (observed pair_eq_dec pairs) (of_int 0).

End PlugIn.

(** ** Notions used in the statements and proofs *)

(** The permutation of flat positions behind the index map. *)
Definition sigma (n i : Z) : Z := (n - 1 - i mod n) * n + i / n.

(** A grid of side [n]: a tuple of [n * n] integers.  The bits are the
    entries 0 and 1. *)
Definition is_grid (n : Z) (g : list Z) : Prop := Z.of_nat (length g) = n * n.

Definition is_bit (b : Z) : Prop := b = 0 \/ b = 1.

(** The rotated grid as a total function, what [apply_map] returns on a grid
    of the right size. *)
Definition rot (n : Z) (g : list Z) : list Z :=
  map (fun i => nth (Z.to_nat i) g 0) (rotate90_indices n).

(** What [canonical_representative] returns on a grid of the right size. *)
Definition canon (n : Z) (g : list Z) : list Z :=
  py_min g [rot n g; rot n (rot n g); rot n (rot n (rot n g))].

(** A sample the program is meant for: an [n * n] tuple of bits. *)
Definition bit_grid (n : Z) (x : list Z) : Prop := is_grid n x /\ Forall is_bit x.

(** The best cost so far never is 0 while a scan goes on. *)
Definition open_best (best : option Z) : Prop :=
  match best with
  | None => True
  | Some b => 0 < b
  end.

(** No orbit recorded in [seen] holds a grid of cost 0. *)
Definition seen_nonzero (n : Z) (seen : set Z) : Prop :=
  forall y, bit_grid n y -> In (bits_to_int (canon n y)) seen ->
            invariant_cost y n <> 0.

(** The position of the list that the index [i] of Python stands for. *)
Definition wrap_index (len i : Z) : nat :=
  Z.to_nat (if i <? 0 then i + len else i).

(** The encoding of the representative, what the orbit scan puts in [seen]. *)
Definition orbit_code (n : Z) (x : list Z) : Z := bits_to_int (canon n x).

(** [seen] after the codes [cs] were added one by one. *)
Definition add_all (cs : list Z) (seen : set Z) : set Z :=
  fold_left (fun s c => set_add Z.eq_dec c s) cs seen.

(** A byte of a buffer. *)
Definition is_byte (b : Z) : Prop := 0 <= b < 256.

(** * Properties *)

(** ** Ranges and the index map *)

Lemma length_range (n : Z) : length (range n) = Z.to_nat n.
Proof. unfold range. now rewrite length_map, length_seq. Qed.

Lemma nth_map_in {A B : Type} (f : A -> B) (l : list A) (i : nat) (d : B) (d' : A) :
  (i < length l)%nat -> nth i (map f l) d = f (nth i l d').
Proof.
  intros Hi. rewrite (nth_indep _ d (f d')) by now rewrite length_map.
  apply map_nth.
Qed.

Lemma nth_range (n : Z) (i : nat) (d : Z) :
  (i < Z.to_nat n)%nat -> nth i (range n) d = Z.of_nat i.
Proof.
  intros Hi. unfold range.
  rewrite (nth_map_in _ _ _ _ 0%nat) by now rewrite length_seq.
  now rewrite seq_nth.
Qed.

Lemma In_range (n x : Z) : In x (range n) <-> 0 <= x < n.
Proof.
  unfold range. rewrite in_map_iff. split.
  - intros (i & <- & Hi). apply in_seq in Hi. lia.
  - intros Hx. exists (Z.to_nat x). split; [lia|]. apply in_seq. lia.
Qed.

Lemma NoDup_range (n : Z) : NoDup (range n).
Proof.
  unfold range. apply Finite.Injective_map_NoDup.
  - intros a b. apply Nat2Z.inj.
  - apply seq_NoDup.
Qed.

(** Blocks of equal length laid end to end: entry [r * k + c] of the whole is
    entry [c] of block [r]. *)
Lemma nth_flat_map_block {A B : Type} (f : A -> list B) (k : nat) :
  (forall x, length (f x) = k) ->
  forall (l : list A) (r c : nat) (d : B) (da : A),
    (r < length l)%nat -> (c < k)%nat ->
    nth (r * k + c) (flat_map f l) d = nth c (f (nth r l da)) d.
Proof.
  intros Hk l. induction l as [|a l IH]; intros r c d da Hr Hc; simpl in Hr.
  - lia.
  - simpl flat_map. destruct r as [|r].
    + simpl. apply app_nth1. now rewrite Hk.
    + rewrite app_nth2 by (rewrite Hk; simpl; lia).
      rewrite Hk. replace (S r * k + c - k)%nat with (r * k + c)%nat by (simpl; lia).
      simpl nth. apply IH; lia.
Qed.

Lemma length_flat_map_block {A B : Type} (f : A -> list B) (k : nat) :
  (forall x, length (f x) = k) ->
  forall l : list A, length (flat_map f l) = (length l * k)%nat.
Proof.
  intros Hk l. induction l as [|a l IH]; simpl; [reflexivity|].
  now rewrite length_app, Hk, IH.
Qed.

Lemma length_rotate90_indices (n : Z) :
  length (rotate90_indices n) = (Z.to_nat n * Z.to_nat n)%nat.
Proof.
  unfold rotate90_indices.
  rewrite (length_flat_map_block _ (Z.to_nat n)).
  - now rewrite length_range.
  - intros x. now rewrite length_map, length_range.
Qed.

Lemma nth_rotate90_indices (n : Z) (r c : nat) (d : Z) :
  (r < Z.to_nat n)%nat -> (c < Z.to_nat n)%nat ->
  nth (r * Z.to_nat n + c) (rotate90_indices n) d
  = (n - 1 - Z.of_nat c) * n + Z.of_nat r.
Proof.
  intros Hr Hc. unfold rotate90_indices.
  rewrite (nth_flat_map_block _ (Z.to_nat n)) with (da := 0).
  - rewrite nth_range by assumption.
    rewrite (nth_map_in _ _ _ _ 0) by now rewrite length_range.
    now rewrite nth_range.
  - intros x. now rewrite length_map, length_range.
  - now rewrite length_range.
  - assumption.
Qed.

Lemma divmod_block (n a b : Z) :
  0 <= a -> 0 <= b < n -> (a * n + b) / n = a /\ (a * n + b) mod n = b.
Proof.
  intros Ha Hb. split.
  - symmetry. apply (Z.div_unique _ _ _ b); lia.
  - symmetry. apply (Z.mod_unique _ _ a); lia.
Qed.

Lemma sigma_bounds (n i : Z) :
  0 < n -> 0 <= i < n * n -> 0 <= sigma n i < n * n.
Proof.
  intros Hn Hi. unfold sigma.
  pose proof (Z.mod_pos_bound i n Hn).
  assert (0 <= i / n < n).
  { split; [apply Z.div_pos; lia|]. apply Z.div_lt_upper_bound; lia. }
  nia.
Qed.

Lemma sigma_div_mod (n i : Z) :
  0 < n -> 0 <= i < n * n ->
  sigma n i / n = n - 1 - i mod n /\ sigma n i mod n = i / n.
Proof.
  intros Hn Hi. unfold sigma.
  pose proof (Z.mod_pos_bound i n Hn).
  assert (0 <= i / n < n).
  { split; [apply Z.div_pos; lia|]. apply Z.div_lt_upper_bound; lia. }
  apply divmod_block; lia.
Qed.

Lemma sigma_order4 (n i : Z) :
  0 < n -> 0 <= i < n * n -> sigma n (sigma n (sigma n (sigma n i))) = i.
Proof.
  intros Hn Hi.
  pose proof (sigma_bounds n i Hn Hi) as H1.
  pose proof (sigma_bounds n _ Hn H1) as H2.
  pose proof (sigma_bounds n _ Hn H2) as H3.
  destruct (sigma_div_mod n i Hn Hi) as [D1 M1].
  destruct (sigma_div_mod n _ Hn H1) as [D2 M2].
  destruct (sigma_div_mod n _ Hn H2) as [D3 M3].
  unfold sigma at 1. rewrite M3, D3, M2, D2, D1, M1.
  rewrite (Z.div_mod i n) at 3 by lia. lia.
Qed.

Lemma rotate90_indices_sigma (n : Z) :
  0 < n -> rotate90_indices n = map (sigma n) (range (n * n)).
Proof.
  intros Hn.
  assert (HN : Z.to_nat (n * n) = (Z.to_nat n * Z.to_nat n)%nat) by lia.
  apply (nth_ext _ _ 0 0).
  - now rewrite length_rotate90_indices, length_map, length_range.
  - intros i Hi. rewrite length_rotate90_indices in Hi.
    rewrite (nth_map_in _ _ _ _ 0) by (rewrite length_range; lia).
    rewrite nth_range by lia.
    assert (Hk : (0 < Z.to_nat n)%nat) by lia.
    pose proof (Nat.div_mod_eq i (Z.to_nat n)) as E.
    pose proof (Nat.mod_upper_bound i (Z.to_nat n) ltac:(lia)) as Hc.
    assert (Hr : (i / Z.to_nat n < Z.to_nat n)%nat)
      by (apply Nat.Div0.div_lt_upper_bound; lia).
    rewrite E at 1. rewrite (Nat.mul_comm (Z.to_nat n)).
    rewrite nth_rotate90_indices by assumption.
    unfold sigma. rewrite Nat2Z.inj_mod, Nat2Z.inj_div, Z2Nat.id by lia.
    reflexivity.
Qed.

Lemma sigma_inj (n a b : Z) :
  0 < n -> 0 <= a < n * n -> 0 <= b < n * n -> sigma n a = sigma n b -> a = b.
Proof.
  intros Hn Ha Hb E.
  rewrite <- (sigma_order4 n a Hn Ha), <- (sigma_order4 n b Hn Hb).
  now rewrite E.
Qed.

Lemma rotate90_indices_bounds (n : Z) :
  Forall (fun i => 0 <= i < n * n) (rotate90_indices n).
Proof.
  destruct (Z_lt_le_dec 0 n) as [Hn|Hn].
  - rewrite rotate90_indices_sigma by assumption.
    apply Forall_forall. intros x Hx. apply in_map_iff in Hx.
    destruct Hx as (i & <- & Hi). apply In_range in Hi.
    now apply sigma_bounds.
  - pose proof (length_rotate90_indices n) as Hl.
    replace (Z.to_nat n) with 0%nat in Hl by lia.
    destruct (rotate90_indices n); [constructor|discriminate].
Qed.

Lemma rotate90_indices_perm (n : Z) :
  0 < n -> Permutation (rotate90_indices n) (range (n * n)).
Proof.
  intros Hn. apply NoDup_Permutation_bis.
  - rewrite rotate90_indices_sigma by assumption.
    apply NoDup_map_NoDup_ForallPairs; [|apply NoDup_range].
    intros a b Ha Hb. apply In_range in Ha, Hb. now apply sigma_inj.
  - rewrite length_rotate90_indices, length_range. lia.
  - intros x Hx. apply In_range.
    pose proof (rotate90_indices_bounds n) as Hb.
    rewrite Forall_forall in Hb. now apply Hb.
Qed.

(** ** Applying the index map *)

Lemma py_index_in {A : Type} (vec : list A) (i : Z) (d : A) :
  0 <= i < Z.of_nat (length vec) ->
  py_index vec i = Return (nth (Z.to_nat i) vec d).
Proof.
  intros Hi. unfold py_index.
  destruct (Z.ltb_spec i 0); [lia|].
  destruct (Z.ltb_spec i 0); [lia|].
  destruct (Z.leb_spec (Z.of_nat (length vec)) i); [lia|]. simpl.
  now rewrite (nth_error_nth' vec d) by lia.
Qed.

Lemma apply_map_in_range (vec index_map : list Z) :
  Forall (fun i => 0 <= i < Z.of_nat (length vec)) index_map ->
  apply_map vec index_map
  = Return (map (fun i => nth (Z.to_nat i) vec 0) index_map).
Proof.
  induction 1 as [|i rest Hi _ IH]; simpl; [reflexivity|].
  now rewrite (py_index_in vec i 0 Hi), IH.
Qed.

Lemma apply_map_rot (n : Z) (g : list Z) :
  is_grid n g -> apply_map g (rotate90_indices n) = Return (rot n g).
Proof.
  intros Hg. apply apply_map_in_range. rewrite Hg.
  apply rotate90_indices_bounds.
Qed.

Lemma is_grid_rot (n : Z) (g : list Z) : 0 <= n -> is_grid n (rot n g).
Proof.
  intros Hn. unfold is_grid, rot.
  rewrite length_map, length_rotate90_indices. lia.
Qed.

Create HintDb grid.
#[local] Hint Resolve is_grid_rot : grid.

Lemma nth_rot (n : Z) (g : list Z) (z : Z) :
  0 < n -> 0 <= z < n * n ->
  nth (Z.to_nat z) (rot n g) 0 = nth (Z.to_nat (sigma n z)) g 0.
Proof.
  intros Hn Hz. unfold rot. rewrite rotate90_indices_sigma by assumption.
  rewrite map_map.
  rewrite (nth_map_in _ _ _ _ 0) by (rewrite length_range; lia).
  rewrite nth_range by lia. now rewrite Z2Nat.id by lia.
Qed.

Lemma rot_order4 (n : Z) (g : list Z) :
  0 <= n -> is_grid n g -> rot n (rot n (rot n (rot n g))) = g.
Proof.
  intros Hn Hg. destruct (Z.eq_dec n 0) as [->|Hn0].
  - unfold is_grid in Hg. destruct g; [reflexivity|discriminate].
  - assert (Hpos : 0 < n) by lia.
    apply (nth_ext _ _ 0 0).
    + pose proof (is_grid_rot n (rot n (rot n (rot n g))) Hn) as H4.
      unfold is_grid in *. lia.
    + intros i Hi.
      pose proof (is_grid_rot n (rot n (rot n (rot n g))) Hn) as H4.
      unfold is_grid in H4.
      assert (Hz : 0 <= Z.of_nat i < n * n) by lia.
      pose proof (sigma_bounds n _ Hpos Hz) as H1.
      pose proof (sigma_bounds n _ Hpos H1) as H2.
      pose proof (sigma_bounds n _ Hpos H2) as H3.
      rewrite <- (Nat2Z.id i) at 1.
      rewrite !nth_rot by assumption.
      now rewrite sigma_order4, Nat2Z.id.
Qed.

Lemma rot_inj (n : Z) (a b : list Z) :
  0 <= n -> is_grid n a -> is_grid n b -> rot n a = rot n b -> a = b.
Proof.
  intros Hn Ha Hb E.
  rewrite <- (rot_order4 n a Hn Ha), <- (rot_order4 n b Hn Hb).
  now rewrite E.
Qed.

Lemma rotate_loop_rot (n : Z) (cnt : nat) (g : list Z) :
  0 <= n -> is_grid n g ->
  rotate_loop cnt g (rotate90_indices n) = Return (Nat.iter cnt (rot n) g).
Proof.
  intros Hn. revert g. induction cnt as [|cnt IH]; intros g Hg; [reflexivity|].
  simpl rotate_loop. rewrite apply_map_rot by assumption. simpl bind.
  rewrite IH by now apply is_grid_rot.
  f_equal. symmetry. apply Nat.iter_succ_r.
Qed.

Lemma rotate_rot (n k : Z) (g : list Z) :
  0 <= n -> is_grid n g ->
  rotate g n k (rotate90_indices n)
  = Return (Nat.iter (Z.to_nat (k mod 4)) (rot n) g).
Proof. intros Hn Hg. unfold rotate. now apply rotate_loop_rot. Qed.

Lemma is_grid_iter_rot (n : Z) (j : nat) (g : list Z) :
  0 <= n -> is_grid n g -> is_grid n (Nat.iter j (rot n) g).
Proof.
  intros Hn Hg. induction j as [|j IH]; simpl; [assumption|].
  now apply is_grid_rot.
Qed.

#[local] Hint Resolve is_grid_iter_rot : grid.

(** C4: for [n >= 1] the index map has [n * n] entries, the entry at flat
    destination position [r * n + c] is the source index [(n - 1 - c) * n + r],
    every entry lies in [0, n * n), and the map is a permutation of
    [0 .. n * n - 1]. *)
Theorem rotate90_indices_permutation (n : Z) :
  1 <= n ->
  Z.of_nat (length (rotate90_indices n)) = n * n /\
  (forall r c, 0 <= r < n -> 0 <= c < n ->
     py_index (rotate90_indices n) (r * n + c) = Return ((n - 1 - c) * n + r)) /\
  Forall (fun i => 0 <= i < n * n) (rotate90_indices n) /\
  Permutation (rotate90_indices n) (range (n * n)).
Proof.
  intros Hn.
  assert (Hlen : Z.of_nat (length (rotate90_indices n)) = n * n)
    by (rewrite length_rotate90_indices; lia).
  repeat split.
  - exact Hlen.
  - intros r c Hr Hc.
    rewrite (py_index_in _ _ 0) by (rewrite Hlen; nia).
    replace (Z.to_nat (r * n + c))
      with (Z.to_nat r * Z.to_nat n + Z.to_nat c)%nat by nia.
    rewrite nth_rotate90_indices by lia.
    now rewrite !Z2Nat.id by lia.
  - apply rotate90_indices_bounds.
  - apply rotate90_indices_perm. lia.
Qed.

Lemma rotate90_indices_permutation_witness :
  Z.of_nat (length (rotate90_indices 3)) = 3 * 3 /\
  (forall r c, 0 <= r < 3 -> 0 <= c < 3 ->
     py_index (rotate90_indices 3) (r * 3 + c) = Return ((3 - 1 - c) * 3 + r)) /\
  Forall (fun i => 0 <= i < 3 * 3) (rotate90_indices 3) /\
  Permutation (rotate90_indices 3) (range (3 * 3)).
Proof. apply (rotate90_indices_permutation 3). lia. Defined.

(** C2: on a grid of side [n >= 1] with the index map of [n], [rotate] with
    [k = 4] and with [k = 0] returns the grid unchanged; [rotate] runs the
    90-degree map [k mod 4] times, one more turn is one more application of
    the map, and four applications in sequence give the grid back. *)
Theorem rotate_order4 (n : Z) (g : list Z) :
  1 <= n -> is_grid n g ->
  let m := rotate90_indices n in
  rotate g n 4 m = Return g /\
  rotate g n 0 m = Return g /\
  (forall k, rotate g n k m = rotate_loop (Z.to_nat (k mod 4)) g m) /\
  (forall k, rotate g n (k + 1) m = (do out <- rotate g n k m; apply_map out m)) /\
  rotate_loop 4 g m = Return g.
Proof.
  intros Hn Hg m. subst m.
  assert (Hn0 : 0 <= n) by lia.
  repeat split.
  - intros k. rewrite !rotate_rot by assumption. simpl bind.
    rewrite apply_map_rot by now apply is_grid_iter_rot.
    f_equal.
    pose proof (Z.mod_pos_bound k 4 ltac:(lia)) as Hk.
    assert (Hc : k mod 4 = 0 \/ k mod 4 = 1 \/ k mod 4 = 2 \/ k mod 4 = 3) by lia.
    rewrite Z.add_mod by lia.
    destruct Hc as [E|[E|[E|E]]]; rewrite E; try reflexivity.
    change ((3 + 1 mod 4) mod 4) with 0. simpl.
    symmetry. now apply rot_order4.
  - rewrite rotate_loop_rot by assumption. simpl. f_equal.
    now apply rot_order4.
Qed.

Lemma rotate_order4_witness :
  let g := [1; 0; 0; 0; 1; 1; 0; 0; 0] in
  let m := rotate90_indices 3 in
  rotate g 3 4 m = Return g /\
  rotate g 3 0 m = Return g /\
  (forall k, rotate g 3 k m = rotate_loop (Z.to_nat (k mod 4)) g m) /\
  (forall k, rotate g 3 (k + 1) m = (do out <- rotate g 3 k m; apply_map out m)) /\
  rotate_loop 4 g m = Return g.
Proof.
  apply (rotate_order4 3 [1; 0; 0; 0; 1; 1; 0; 0; 0]); [lia|reflexivity].
Defined.

(** ** The order on tuples and [min] *)

Lemma tuple_ltb_irrefl (a : list Z) : tuple_ltb a a = false.
Proof.
  induction a as [|x a IH]; simpl; [reflexivity|].
  now rewrite Z.eqb_refl.
Qed.

Lemma tuple_ltb_trans (a b c : list Z) :
  tuple_ltb a b = true -> tuple_ltb b c = true -> tuple_ltb a c = true.
Proof.
  revert b c. induction a as [|x a IH]; intros [|y b] [|z c]; simpl;
    try discriminate; try reflexivity.
  destruct (Z.eqb_spec x y), (Z.eqb_spec y z), (Z.eqb_spec x z);
    rewrite ?Z.ltb_lt; intros; subst; try lia; eauto.
Qed.

Lemma tuple_ltb_asym (a b : list Z) :
  tuple_ltb a b = true -> tuple_ltb b a = false.
Proof.
  revert b. induction a as [|x a IH]; intros [|y b]; simpl;
    try discriminate; try reflexivity.
  destruct (Z.eqb_spec x y), (Z.eqb_spec y x);
    rewrite ?Z.ltb_lt, ?Z.ltb_ge; intros; subst; try lia; eauto.
Qed.

Lemma tuple_ltb_connected (a b : list Z) :
  tuple_ltb a b = false -> tuple_ltb b a = false -> a = b.
Proof.
  revert b. induction a as [|x a IH]; intros [|y b]; simpl;
    try discriminate; try reflexivity.
  destruct (Z.eqb_spec x y), (Z.eqb_spec y x);
    rewrite ?Z.ltb_ge; intros; subst; try lia.
  f_equal. now apply IH.
Qed.

(** [a <= b] on tuples is [tuple_ltb b a = false]; it is transitive. *)
Lemma tuple_leb_trans (a b c : list Z) :
  tuple_ltb b a = false -> tuple_ltb c b = false -> tuple_ltb c a = false.
Proof.
  intros Hab Hbc. destruct (tuple_ltb c a) eqn:Hca; [|reflexivity].
  destruct (tuple_ltb a b) eqn:Hlt.
  - now rewrite (tuple_ltb_trans c a b Hca Hlt) in Hbc.
  - rewrite (tuple_ltb_connected a b Hlt Hab) in Hca. congruence.
Qed.

Lemma py_min_lower_bound (first : list Z) (rest : list (list Z)) (x : list Z) :
  In x (first :: rest) -> tuple_ltb x (py_min first rest) = false.
Proof.
  unfold py_min. revert first x.
  induction rest as [|item rest IH]; intros first x Hx; simpl.
  - destruct Hx as [<-|[]]. apply tuple_ltb_irrefl.
  - set (cur := if tuple_ltb item first then item else first).
    assert (Hfirst : tuple_ltb first cur = false).
    { subst cur. destruct (tuple_ltb item first) eqn:E.
      - now apply tuple_ltb_asym.
      - apply tuple_ltb_irrefl. }
    assert (Hitem : tuple_ltb item cur = false).
    { subst cur. destruct (tuple_ltb item first) eqn:E.
      - apply tuple_ltb_irrefl.
      - exact E. }
    pose proof (IH cur cur (or_introl eq_refl)) as Hcur.
    destruct Hx as [<-|[<-|Hx]].
    + exact (tuple_leb_trans _ _ _ Hcur Hfirst).
    + exact (tuple_leb_trans _ _ _ Hcur Hitem).
    + apply IH. now right.
Qed.

Lemma py_min_In (first : list Z) (rest : list (list Z)) :
  In (py_min first rest) (first :: rest).
Proof.
  unfold py_min. revert first.
  induction rest as [|item rest IH]; intros first; simpl; [now left|].
  destruct (IH (if tuple_ltb item first then item else first)) as [E|Hin].
  - rewrite <- E. destruct (tuple_ltb item first); auto.
  - auto.
Qed.

(** Two candidate lists with the same members have the same minimum. *)
Lemma py_min_same_members (a b : list Z) (la lb : list (list Z)) :
  incl (a :: la) (b :: lb) -> incl (b :: lb) (a :: la) ->
  py_min a la = py_min b lb.
Proof.
  intros Hab Hba. apply tuple_ltb_connected.
  - apply py_min_lower_bound, Hab, py_min_In.
  - apply py_min_lower_bound, Hba, py_min_In.
Qed.

(** ** Canonical representatives *)

Lemma canonical_representative_canon (n : Z) (g : list Z) :
  0 <= n -> is_grid n g ->
  canonical_representative g n (rotate90_indices n) = Return (canon n g).
Proof.
  intros Hn Hg. unfold canonical_representative.
  rewrite apply_map_rot by assumption. simpl bind.
  rewrite apply_map_rot by now apply is_grid_rot. simpl bind.
  rewrite apply_map_rot by now apply is_grid_rot. reflexivity.
Qed.

Lemma canon_rot (n : Z) (g : list Z) :
  0 <= n -> is_grid n g -> canon n (rot n g) = canon n g.
Proof.
  intros Hn Hg. unfold canon. rewrite (rot_order4 n g Hn Hg).
  apply py_min_same_members; intros x Hx; simpl in *; intuition.
Qed.

Lemma canon_iter_rot (n : Z) (j : nat) (g : list Z) :
  0 <= n -> is_grid n g -> canon n (Nat.iter j (rot n) g) = canon n g.
Proof.
  intros Hn Hg. induction j as [|j IH]; simpl; [reflexivity|].
  rewrite canon_rot; auto using is_grid_iter_rot.
Qed.

Lemma canon_in_orbit (n : Z) (g : list Z) :
  exists j : nat, (j < 4)%nat /\ canon n g = Nat.iter j (rot n) g.
Proof.
  destruct (py_min_In g [rot n g; rot n (rot n g); rot n (rot n (rot n g))])
    as [E|[E|[E|[E|[]]]]].
  - exists 0%nat. split; [lia|now symmetry].
  - exists 1%nat. split; [lia|now symmetry].
  - exists 2%nat. split; [lia|now symmetry].
  - exists 3%nat. split; [lia|now symmetry].
Qed.

Lemma is_grid_canon (n : Z) (g : list Z) :
  0 <= n -> is_grid n g -> is_grid n (canon n g).
Proof.
  intros Hn Hg. destruct (canon_in_orbit n g) as (j & _ & ->).
  now apply is_grid_iter_rot.
Qed.

#[local] Hint Resolve is_grid_canon : grid.

(** C1: on a grid of side [n >= 1], canonicalizing the grid and canonicalizing
    its rotation by one turn give the same representative, and so does
    canonicalizing [rotate g n k m] for every [k]. *)
Theorem canonical_representative_orbit_invariant (n : Z) (g : list Z) :
  1 <= n -> is_grid n g ->
  let m := rotate90_indices n in
  exists g1 c,
    rotate g n 1 m = Return g1 /\
    canonical_representative g n m = Return c /\
    canonical_representative g1 n m = Return c /\
    (forall k, exists gk,
        rotate g n k m = Return gk /\
        canonical_representative gk n m = Return c).
Proof.
  intros Hn Hg m. subst m. assert (Hn0 : 0 <= n) by lia.
  exists (rot n g), (canon n g). repeat split.
  - now rewrite rotate_rot.
  - now apply canonical_representative_canon.
  - rewrite canonical_representative_canon by auto with grid.
    now rewrite canon_rot.
  - intros k. eexists. split; [now apply rotate_rot|].
    rewrite canonical_representative_canon by auto with grid.
    now rewrite canon_iter_rot.
Qed.

Lemma canonical_representative_orbit_invariant_witness :
  exists g1 c,
    rotate [0; 1; 0; 0; 0; 0; 1; 0; 0] 3 1 (rotate90_indices 3) = Return g1 /\
    canonical_representative [0; 1; 0; 0; 0; 0; 1; 0; 0] 3 (rotate90_indices 3)
    = Return c /\
    canonical_representative g1 3 (rotate90_indices 3) = Return c /\
    (forall k, exists gk,
        rotate [0; 1; 0; 0; 0; 0; 1; 0; 0] 3 k (rotate90_indices 3) = Return gk /\
        canonical_representative gk 3 (rotate90_indices 3) = Return c).
Proof.
  apply (canonical_representative_orbit_invariant 3 [0; 1; 0; 0; 0; 0; 1; 0; 0]);
    [lia|reflexivity].
Defined.

(** C8: canonicalization is idempotent: the representative of a grid is its
    own representative. *)
Theorem canonical_representative_idempotent (n : Z) (g : list Z) :
  1 <= n -> is_grid n g ->
  let m := rotate90_indices n in
  exists c,
    canonical_representative g n m = Return c /\
    canonical_representative c n m = Return c.
Proof.
  intros Hn Hg m. subst m. assert (Hn0 : 0 <= n) by lia.
  exists (canon n g). split.
  - now apply canonical_representative_canon.
  - rewrite canonical_representative_canon by auto with grid.
    f_equal. destruct (canon_in_orbit n g) as (j & _ & E).
    rewrite E at 1. now apply canon_iter_rot.
Qed.

Lemma canonical_representative_idempotent_witness :
  exists c,
    canonical_representative [0; 1; 0; 0; 0; 0; 1; 0; 0] 3 (rotate90_indices 3)
    = Return c /\
    canonical_representative c 3 (rotate90_indices 3) = Return c.
Proof.
  apply (canonical_representative_idempotent 3 [0; 1; 0; 0; 0; 0; 1; 0; 0]);
    [lia|reflexivity].
Defined.

(** ** The integer encoding *)

Lemma land_1_mod (b : Z) : Z.land b 1 = b mod 2.
Proof. change 1 with (Z.ones 1). now rewrite Z.land_ones by lia. Qed.

Lemma land_1_bit (b : Z) : is_bit (Z.land b 1).
Proof.
  rewrite land_1_mod. pose proof (Z.mod_pos_bound b 2 ltac:(lia)).
  unfold is_bit. lia.
Qed.

Lemma encode_step (v b : Z) :
  Z.lor (Z.shiftl v 1) (Z.land b 1) = 2 * v + b mod 2.
Proof.
  rewrite Z.shiftl_mul_pow2 by lia. change (2 ^ 1) with 2.
  pose proof (Z.add_lor_land (v * 2) (Z.land b 1)) as H.
  assert (E : Z.land (v * 2) (Z.land b 1) = 0).
  { destruct (land_1_bit b) as [->| ->].
    - apply Z.land_0_r.
    - rewrite land_1_mod. apply Z_mod_mult. }
  rewrite E, land_1_mod in H. rewrite land_1_mod. lia.
Qed.

Lemma encode_acc (bits : list Z) (v : Z) :
  fold_left (fun v b => Z.lor (Z.shiftl v 1) (Z.land b 1)) bits v
  = v * 2 ^ Z.of_nat (length bits) + bits_to_int bits.
Proof.
  unfold bits_to_int. revert v.
  induction bits as [|b bits IH]; intros v.
  - simpl. lia.
  - cbn [fold_left length]. rewrite IH, (IH (Z.lor _ _)), !encode_step.
    rewrite Nat2Z.inj_succ, Z.pow_succ_r by lia. ring.
Qed.

Lemma bits_to_int_cons (b : Z) (bits : list Z) :
  bits_to_int (b :: bits)
  = (b mod 2) * 2 ^ Z.of_nat (length bits) + bits_to_int bits.
Proof.
  unfold bits_to_int at 1. cbn [fold_left]. rewrite encode_acc, encode_step.
  ring.
Qed.

Lemma bits_to_int_bounds (bits : list Z) :
  0 <= bits_to_int bits < 2 ^ Z.of_nat (length bits).
Proof.
  induction bits as [|b bits IH].
  - cbn. lia.
  - rewrite bits_to_int_cons. cbn [length].
    rewrite Nat2Z.inj_succ, Z.pow_succ_r by lia.
    pose proof (Z.mod_pos_bound b 2 ltac:(lia)). nia.
Qed.

Lemma is_bit_mod (b : Z) : is_bit b -> b mod 2 = b.
Proof. now intros [->| ->]. Qed.

(** On bit tuples of one length the tuple order is the order of the
    encodings. *)
Lemma tuple_ltb_bits_to_int (a b : list Z) :
  length a = length b -> Forall is_bit a -> Forall is_bit b ->
  tuple_ltb a b = (bits_to_int a <? bits_to_int b).
Proof.
  revert b. induction a as [|x a IH]; intros [|y b] Hlen Ha Hb;
    try discriminate.
  - reflexivity.
  - injection Hlen as Hlen. inversion Ha as [|? ? Hx Ha']; subst.
    inversion Hb as [|? ? Hy Hb']; subst.
    cbn [tuple_ltb]. rewrite !bits_to_int_cons, Hlen.
    rewrite (is_bit_mod x Hx), (is_bit_mod y Hy).
    pose proof (bits_to_int_bounds a) as Ba. rewrite Hlen in Ba.
    pose proof (bits_to_int_bounds b) as Bb.
    destruct (Z.eqb_spec x y) as [->|Hne].
    + rewrite (IH b Hlen Ha' Hb').
      destruct (Z.ltb_spec (bits_to_int a) (bits_to_int b));
        symmetry; [apply Z.ltb_lt|apply Z.ltb_ge]; lia.
    + destruct Hx as [->| ->], Hy as [->| ->]; try congruence.
      * change (0 <? 1) with true. symmetry. apply Z.ltb_lt. lia.
      * change (1 <? 0) with false. symmetry. apply Z.ltb_ge. lia.
Qed.

Lemma bits_to_int_inj (a b : list Z) :
  length a = length b -> Forall is_bit a -> Forall is_bit b ->
  bits_to_int a = bits_to_int b -> a = b.
Proof.
  intros Hlen Ha Hb E. apply tuple_ltb_connected.
  - rewrite tuple_ltb_bits_to_int by assumption. apply Z.ltb_ge. lia.
  - rewrite tuple_ltb_bits_to_int by auto. apply Z.ltb_ge. lia.
Qed.

(** The encoding reads every entry through [b & 1]. *)
Lemma bits_to_int_land (g : list Z) :
  bits_to_int (map (fun b => Z.land b 1) g) = bits_to_int g.
Proof.
  induction g as [|b g IH]; [reflexivity|].
  cbn [map]. rewrite !bits_to_int_cons, length_map, IH.
  now rewrite (is_bit_mod _ (land_1_bit b)), land_1_mod.
Qed.

Lemma range_succ (k : nat) :
  range (Z.of_nat (S k)) = 0 :: map Z.succ (range (Z.of_nat k)).
Proof.
  unfold range. rewrite !Nat2Z.id. cbn [seq map].
  rewrite <- seq_shift, !map_map. f_equal.
  apply map_ext. intros i. lia.
Qed.

Lemma land_shiftr_testbit (v k : Z) :
  0 <= k -> Z.land (Z.shiftr v k) 1 = Z.b2z (Z.testbit v k).
Proof.
  intros Hk. rewrite land_1_mod, <- Z.bit0_mod, Z.shiftr_spec by lia.
  reflexivity.
Qed.

Lemma int_to_bits_succ (v : Z) (k : nat) :
  int_to_bits v (Z.of_nat (S k))
  = Z.land (Z.shiftr v (Z.of_nat k)) 1
    :: int_to_bits (v mod 2 ^ Z.of_nat k) (Z.of_nat k).
Proof.
  unfold int_to_bits. rewrite range_succ. cbn [map]. f_equal.
  - f_equal. f_equal. lia.
  - rewrite map_map. apply map_ext_in. intros i Hi. apply In_range in Hi.
    rewrite !land_shiftr_testbit by lia. f_equal.
    rewrite Z.mod_pow2_bits_low by lia. f_equal. lia.
Qed.

Lemma int_to_bits_bits_to_int (g : list Z) :
  Forall is_bit g -> int_to_bits (bits_to_int g) (Z.of_nat (length g)) = g.
Proof.
  induction 1 as [|b g Hb Hg IH]; [reflexivity|].
  cbn [length]. rewrite int_to_bits_succ, bits_to_int_cons, (is_bit_mod b Hb).
  pose proof (bits_to_int_bounds g) as Bg.
  assert (Hp : 0 < 2 ^ Z.of_nat (length g)) by (apply Z.pow_pos_nonneg; lia).
  f_equal.
  - rewrite Z.shiftr_div_pow2 by lia.
    rewrite Z.div_add_l by lia. rewrite Z.div_small by lia.
    rewrite land_1_mod, Z.add_0_r. now apply is_bit_mod.
  - rewrite Z.add_comm, Z_mod_plus_full, Z.mod_small by lia. exact IH.
Qed.

(** Rotation moves entries around: bit grids stay bit grids. *)
Lemma Forall_rot (P : Z -> Prop) (n : Z) (g : list Z) :
  is_grid n g -> Forall P g -> Forall P (rot n g).
Proof.
  intros Hg HP. unfold rot. apply Forall_forall. intros x Hx.
  apply in_map_iff in Hx. destruct Hx as (i & <- & Hi).
  pose proof (rotate90_indices_bounds n) as Hb.
  rewrite Forall_forall in Hb. specialize (Hb i Hi).
  rewrite Forall_forall in HP. apply HP, nth_In.
  unfold is_grid in Hg. lia.
Qed.

Lemma Forall_iter_rot (P : Z -> Prop) (n : Z) (j : nat) (g : list Z) :
  0 <= n -> is_grid n g -> Forall P g -> Forall P (Nat.iter j (rot n) g).
Proof.
  intros Hn Hg HP. induction j as [|j IH]; simpl; [assumption|].
  apply Forall_rot; auto with grid.
Qed.

Lemma Forall_canon (P : Z -> Prop) (n : Z) (g : list Z) :
  0 <= n -> is_grid n g -> Forall P g -> Forall P (canon n g).
Proof.
  intros Hn Hg HP. destruct (canon_in_orbit n g) as (j & _ & ->).
  now apply Forall_iter_rot.
Qed.

Lemma length_is_grid (n : Z) (a b : list Z) :
  is_grid n a -> is_grid n b -> length a = length b.
Proof. unfold is_grid. lia. Qed.

(** C9: on bit tuples of length [n * n] the tuple order is the order of the
    big-endian encodings, so the representative chosen by [min] is a rotation
    whose encoding is the smallest among the rotations; and decoding the
    encoding of a bit grid over [n * n] bits gives the grid back. *)
Theorem tuple_order_is_encoding_order (n : Z) (a b g : list Z) :
  1 <= n ->
  is_grid n a -> Forall is_bit a ->
  is_grid n b -> Forall is_bit b ->
  is_grid n g -> Forall is_bit g ->
  let m := rotate90_indices n in
  (tuple_ltb a b = true <-> bits_to_int a < bits_to_int b) /\
  (exists c,
      canonical_representative g n m = Return c /\
      (exists k, rotate g n k m = Return c) /\
      (forall k gk, rotate g n k m = Return gk ->
                    bits_to_int c <= bits_to_int gk)) /\
  int_to_bits (bits_to_int g) (n * n) = g.
Proof.
  intros Hn Ha Ba Hb Bb Hg Bg m. subst m. assert (Hn0 : 0 <= n) by lia.
  split; [|split].
  - rewrite (tuple_ltb_bits_to_int a b (length_is_grid n a b Ha Hb) Ba Bb).
    apply Z.ltb_lt.
  - exists (canon n g). split; [now apply canonical_representative_canon|].
    split.
    + destruct (canon_in_orbit n g) as (j & Hj & E).
      exists (Z.of_nat j). rewrite rotate_rot by assumption.
      rewrite Z.mod_small by lia. now rewrite Nat2Z.id, E.
    + intros k gk Hk. rewrite rotate_rot in Hk by assumption.
      injection Hk as <-.
      set (gk := Nat.iter (Z.to_nat (k mod 4)) (rot n) g).
      assert (Hgk : is_grid n gk) by (subst gk; auto with grid).
      assert (Bgk : Forall is_bit gk) by (subst gk; now apply Forall_iter_rot).
      assert (Hlow : tuple_ltb gk (canon n g) = false).
      { rewrite <- (canon_iter_rot n (Z.to_nat (k mod 4)) g Hn0 Hg).
        fold gk. apply py_min_lower_bound. now left. }
      rewrite tuple_ltb_bits_to_int in Hlow.
      * now apply Z.ltb_ge.
      * apply (length_is_grid n); auto with grid.
      * assumption.
      * now apply Forall_canon.
  - rewrite <- Hg. now apply int_to_bits_bits_to_int.
Qed.

Lemma tuple_order_is_encoding_order_witness :
  (tuple_ltb [0; 1; 1; 0] [1; 0; 0; 0] = true
   <-> bits_to_int [0; 1; 1; 0] < bits_to_int [1; 0; 0; 0]) /\
  (exists c,
      canonical_representative [1; 0; 0; 0] 2 (rotate90_indices 2) = Return c /\
      (exists k, rotate [1; 0; 0; 0] 2 k (rotate90_indices 2) = Return c) /\
      (forall k gk, rotate [1; 0; 0; 0] 2 k (rotate90_indices 2) = Return gk ->
                    bits_to_int c <= bits_to_int gk)) /\
  int_to_bits (bits_to_int [1; 0; 0; 0]) (2 * 2) = [1; 0; 0; 0].
Proof.
  apply (tuple_order_is_encoding_order 2 [0; 1; 1; 0] [1; 0; 0; 0] [1; 0; 0; 0]);
    try lia; try reflexivity;
    repeat constructor; unfold is_bit; lia.
Defined.

(** ** Orbit sizes *)

Lemma rot_map (f : Z -> Z) (n : Z) (g : list Z) :
  is_grid n g -> rot n (map f g) = map f (rot n g).
Proof.
  intros Hg. unfold rot. rewrite map_map. apply map_ext_in. intros i Hi.
  pose proof (rotate90_indices_bounds n) as Hb.
  rewrite Forall_forall in Hb. specialize (Hb i Hi).
  apply nth_map_in. unfold is_grid in Hg. lia.
Qed.

Lemma is_grid_map (f : Z -> Z) (n : Z) (g : list Z) :
  is_grid n g -> is_grid n (map f g).
Proof. unfold is_grid. now rewrite length_map. Qed.

(** Encodings of two grids agree exactly when the encodings of their
    rotations do. *)
Lemma bits_to_int_rot_iff (n : Z) (a b : list Z) :
  0 <= n -> is_grid n a -> is_grid n b ->
  bits_to_int (rot n a) = bits_to_int (rot n b)
  <-> bits_to_int a = bits_to_int b.
Proof.
  intros Hn Ha Hb.
  set (low := fun v : Z => Z.land v 1).
  assert (Bl : forall l, Forall is_bit (map low l)).
  { intros l. apply Forall_forall. intros x Hx. apply in_map_iff in Hx.
    destruct Hx as (v & <- & _). apply land_1_bit. }
  rewrite <- (bits_to_int_land (rot n a)), <- (bits_to_int_land (rot n b)).
  rewrite <- (bits_to_int_land a), <- (bits_to_int_land b).
  fold low. rewrite <- !rot_map by assumption.
  pose proof (is_grid_map low n a Ha) as Ha'.
  pose proof (is_grid_map low n b Hb) as Hb'.
  split; intros E.
  - f_equal. apply (rot_inj n); try assumption.
    apply bits_to_int_inj; try assumption.
    + apply (length_is_grid n); auto with grid.
    + rewrite rot_map by assumption. apply Bl.
    + rewrite rot_map by assumption. apply Bl.
  - f_equal. f_equal. apply bits_to_int_inj; try assumption.
    + now apply (length_is_grid n).
    + apply Bl.
    + apply Bl.
Qed.

(** C3: on a grid of side [n >= 1] the number of distinct encodings among the
    four successive rotations is 1, 2 or 4. *)
Theorem orbit_size_1_2_4 (n : Z) (g : list Z) :
  1 <= n -> is_grid n g ->
  exists s,
    orbit_size g n (rotate90_indices n) = Return s /\
    (s = 1 \/ s = 2 \/ s = 4).
Proof.
  intros Hn Hg. assert (Hn0 : 0 <= n) by lia.
  unfold orbit_size.
  rewrite apply_map_rot by assumption. cbn [bind].
  rewrite apply_map_rot by auto with grid. cbn [bind].
  rewrite apply_map_rot by auto with grid. cbn [bind].
  rewrite apply_map_rot by auto with grid. cbn [bind].
  eexists. split; [reflexivity|].
  pose proof (bits_to_int_rot_iff n g (rot n g) Hn0 Hg
                ltac:(auto with grid)) as I1.
  pose proof (bits_to_int_rot_iff n (rot n g) (rot n (rot n g)) Hn0
                ltac:(auto with grid) ltac:(auto with grid)) as I2.
  pose proof (bits_to_int_rot_iff n (rot n (rot n (rot n g))) (rot n (rot n g))
                Hn0 ltac:(auto with grid) ltac:(auto with grid)) as I3.
  pose proof (bits_to_int_rot_iff n g (rot n (rot n g)) Hn0 Hg
                ltac:(auto with grid)) as I4.
  rewrite (rot_order4 n g Hn0 Hg) in I3.
  set (e0 := bits_to_int g) in *.
  set (e1 := bits_to_int (rot n g)) in *.
  set (e2 := bits_to_int (rot n (rot n g))) in *.
  set (e3 := bits_to_int (rot n (rot n (rot n g)))) in *.
  clearbody e0 e1 e2 e3.
  unfold empty_set. cbn [set_add].
  repeat (destruct (Z.eq_dec _ _); cbn [set_add length]);
    try (cbn; lia); exfalso; intuition congruence.
Qed.

Lemma orbit_size_1_2_4_witness :
  exists s,
    orbit_size [0; 0; 1; 0; 0; 0; 1; 0; 0] 3 (rotate90_indices 3) = Return s /\
    (s = 1 \/ s = 2 \/ s = 4).
Proof.
  apply (orbit_size_1_2_4 3 [0; 0; 1; 0; 0; 0; 1; 0; 0]); [lia|reflexivity].
Defined.

(** ** The search simulator *)

Lemma py_sum_acc (x : list Z) (a : Z) : fold_left Z.add x a = a + py_sum x.
Proof.
  unfold py_sum. revert a. induction x as [|v x IH]; intros a; simpl.
  - lia.
  - rewrite IH, (IH v). lia.
Qed.

Lemma py_sum_cons (v : Z) (x : list Z) : py_sum (v :: x) = v + py_sum x.
Proof. unfold py_sum at 1. simpl. apply py_sum_acc. Qed.

Lemma py_sum_perm (a b : list Z) : Permutation a b -> py_sum a = py_sum b.
Proof.
  induction 1; rewrite ?py_sum_cons; lia.
Qed.

Lemma map_nth_range (g : list Z) :
  map (fun i => nth (Z.to_nat i) g 0) (range (Z.of_nat (length g))) = g.
Proof.
  apply (nth_ext _ _ 0 0).
  - now rewrite length_map, length_range, Nat2Z.id.
  - intros i Hi. rewrite length_map, length_range, Nat2Z.id in Hi.
    rewrite (nth_map_in _ _ _ _ 0) by (rewrite length_range; lia).
    rewrite nth_range by lia. now rewrite Nat2Z.id.
Qed.

(** A rotated grid is a rearrangement of the grid. *)
Lemma rot_perm (n : Z) (g : list Z) :
  0 <= n -> is_grid n g -> Permutation (rot n g) g.
Proof.
  intros Hn Hg. destruct (Z.eq_dec n 0) as [->|Hn0].
  - unfold is_grid in Hg. destruct g; [apply perm_nil|discriminate].
  - rewrite <- (map_nth_range g) at 2. rewrite Hg. unfold rot.
    apply Permutation_map, rotate90_indices_perm. lia.
Qed.

Lemma invariant_cost_rot (n : Z) (g : list Z) :
  0 <= n -> is_grid n g -> invariant_cost (rot n g) n = invariant_cost g n.
Proof.
  intros Hn Hg. unfold invariant_cost. f_equal.
  now apply py_sum_perm, rot_perm.
Qed.

Lemma invariant_cost_canon (n : Z) (g : list Z) :
  0 <= n -> is_grid n g -> invariant_cost (canon n g) n = invariant_cost g n.
Proof.
  intros Hn Hg. destruct (canon_in_orbit n g) as (j & _ & ->).
  induction j as [|j IH]; simpl; [reflexivity|].
  rewrite invariant_cost_rot; auto with grid.
Qed.

Lemma invariant_cost_bounds (x : list Z) (n : Z) : 0 <= invariant_cost x n < 5.
Proof. unfold invariant_cost. apply Z.mod_pos_bound. lia. Qed.

Lemma improves_zero (best : option Z) : open_best best -> improves 0 best = true.
Proof. destruct best; simpl; [|reflexivity]. intros H. now apply Z.ltb_lt. Qed.

Lemma open_best_update (c : Z) (best : option Z) (x : list Z) (n : Z) :
  c = invariant_cost x n -> c <> 0 -> open_best (Some c).
Proof.
  intros -> Hc. simpl. pose proof (invariant_cost_bounds x n). lia.
Qed.

Lemma seen_nonzero_add (n : Z) (seen : set Z) (x : list Z) :
  0 <= n -> bit_grid n x -> seen_nonzero n seen ->
  invariant_cost x n <> 0 ->
  seen_nonzero n (set_add Z.eq_dec (bits_to_int (canon n x)) seen).
Proof.
  intros Hn [Hx Bx] Hseen Hc y [Hy By] Hin.
  apply set_add_iff in Hin. destruct Hin as [E|Hin].
  - apply bits_to_int_inj in E.
    + rewrite <- (invariant_cost_canon n y Hn Hy), E.
      now rewrite invariant_cost_canon.
    + apply (length_is_grid n); auto with grid.
    + now apply Forall_canon.
    + now apply Forall_canon.
  - apply Hseen; [now split|assumption].
Qed.

Lemma scans_related (n : Z) (samples : list (list Z)) :
  0 <= n -> Forall (bit_grid n) samples ->
  forall seen evals_orbit best2 evals_raw best,
    open_best best -> open_best best2 -> seen_nonzero n seen ->
    exists evals_orbit',
      orbit_scan samples n (rotate90_indices n) seen evals_orbit best2
      = Return evals_orbit' /\
      evals_orbit <= evals_orbit' /\
      evals_orbit' - evals_orbit <= raw_scan samples n best evals_raw - evals_raw /\
      raw_scan samples n best evals_raw - evals_raw <= Z.of_nat (length samples) /\
      (samples <> [] -> evals_raw + 1 <= raw_scan samples n best evals_raw) /\
      (samples <> [] -> seen = [] -> evals_orbit + 1 <= evals_orbit').
Proof.
  intros Hn Hall. induction Hall as [|x rest Hx Hrest IH];
    intros seen eo best2 er best Hb Hb2 Hseen.
  - exists eo. cbn. repeat split; try lia; congruence.
  - destruct Hx as [Hg Bg].
    cbn [orbit_scan raw_scan].
    rewrite canonical_representative_canon by assumption. cbn [bind].
    rewrite (invariant_cost_canon n x Hn Hg).
    set (c := invariant_cost x n).
    set (e := bits_to_int (canon n x)).
    cbn [length]. rewrite Nat2Z.inj_succ.
    destruct (set_mem Z.eq_dec e seen) eqn:Hmem.
    + (* already seen: the raw scan cannot stop here *)
      apply set_mem_correct1 in Hmem.
      assert (Hc : c <> 0) by (apply (Hseen x); [now split|exact Hmem]).
      assert (Hseen_ne : seen <> []) by (intros ->; destruct Hmem).
      destruct (improves c best) eqn:Himp.
      * destruct (Z.eqb_spec c 0) as [?|_]; [contradiction|].
        destruct (IH seen eo best2 (er + 1) (Some c) (open_best_update c best x n eq_refl Hc) Hb2 Hseen)
          as (eo' & -> & H1 & H2 & H3 & H4 & _).
        exists eo'. repeat split; try lia; try congruence.
      * destruct (IH seen eo best2 (er + 1) best Hb Hb2 Hseen)
          as (eo' & -> & H1 & H2 & H3 & H4 & _).
        exists eo'. repeat split; try lia; try congruence.
    + destruct (Z.eqb_spec c 0) as [Hc|Hc].
      * rewrite Hc, !improves_zero by assumption.
        exists (eo + 1). repeat split; lia.
      * assert (Hseen' : seen_nonzero n (set_add Z.eq_dec e seen))
          by (apply seen_nonzero_add; [assumption|now split|assumption|assumption]).
        pose proof (open_best_update c best x n eq_refl Hc) as Hbc.
        destruct (improves c best) eqn:Himp, (improves c best2) eqn:Himp2.
        -- destruct (IH (set_add Z.eq_dec e seen) (eo + 1) (Some c) (er + 1) (Some c) Hbc Hbc Hseen')
             as (eo' & -> & H1 & H2 & H3 & H4 & _).
           exists eo'. repeat split; lia.
        -- destruct (IH (set_add Z.eq_dec e seen) (eo + 1) best2 (er + 1) (Some c) Hbc Hb2 Hseen')
             as (eo' & -> & H1 & H2 & H3 & H4 & _).
           exists eo'. repeat split; lia.
        -- destruct (IH (set_add Z.eq_dec e seen) (eo + 1) (Some c) (er + 1) best Hb Hbc Hseen')
             as (eo' & -> & H1 & H2 & H3 & H4 & _).
           exists eo'. repeat split; lia.
        -- destruct (IH (set_add Z.eq_dec e seen) (eo + 1) best2 (er + 1) best Hb Hb2 Hseen')
             as (eo' & -> & H1 & H2 & H3 & H4 & _).
           exists eo'. repeat split; lia.
Qed.

Lemma seen_nonzero_empty (n : Z) : seen_nonzero n (empty_set Z).
Proof. intros y _ []. Qed.

(** C5: on a sequence of [n * n] bit grids [brute_force_search] returns
    counts with [evals_orbit <= evals_raw <= len(samples)]; when one of the
    grids has cost 0 both counts are at least 1. *)
Theorem brute_force_search_counts (n : Z) (samples : list (list Z)) :
  1 <= n ->
  Forall (bit_grid n) samples ->
  exists evals_raw evals_orbit,
    brute_force_search samples n = Return (evals_raw, evals_orbit) /\
    evals_orbit <= evals_raw /\
    evals_raw <= Z.of_nat (length samples) /\
    evals_orbit <= Z.of_nat (length samples) /\
    (Exists (fun x => invariant_cost x n = 0) samples ->
     1 <= evals_raw /\ 1 <= evals_orbit).
Proof.
  intros Hn Hall. unfold brute_force_search.
  destruct (scans_related n samples ltac:(lia) Hall (empty_set Z) 0 None 0 None
              I I (seen_nonzero_empty n))
    as (eo & -> & H1 & H2 & H3 & H4 & H5).
  cbn [bind]. eexists. eexists. split; [reflexivity|].
  repeat split; try lia.
  - assert (samples <> []) by (intros ->; inversion H). specialize (H4 H0). lia.
  - assert (samples <> []) by (intros ->; inversion H).
    specialize (H5 H0 eq_refl). lia.
Qed.

Lemma brute_force_search_counts_witness :
  exists evals_raw evals_orbit,
    brute_force_search [[1; 0; 0; 0]; [0; 1; 0; 0]; [0; 0; 0; 0]; [1; 1; 0; 0]] 2
    = Return (evals_raw, evals_orbit) /\
    evals_orbit <= evals_raw /\
    evals_raw <= 4 /\
    evals_orbit <= 4 /\
    1 <= evals_raw /\ 1 <= evals_orbit.
Proof.
  destruct (brute_force_search_counts 2
              [[1; 0; 0; 0]; [0; 1; 0; 0]; [0; 0; 0; 0]; [1; 1; 0; 0]])
    as (er & eo & E & H1 & H2 & H3 & H4).
  - lia.
  - repeat constructor; unfold is_bit; lia.
  - exists er, eo. repeat split; try assumption; apply H4;
      apply Exists_cons_tl, Exists_cons_tl, Exists_cons_hd; reflexivity.
Defined.

(** The samples have to be bit grids: the orbit scan tells orbits apart by
    the encoding, which reads an entry through [b & 1]. *)
Example brute_force_search_beyond_bits :
  brute_force_search [[2; 0; 0; 0]; [0; 0; 0; 0]; [1; 0; 0; 0]; [1; 1; 0; 0]] 2
  = Return (2, 3).
Proof. reflexivity. Qed.

(** ** Counters *)

Section CounterFacts.

Context {K : Type} (eq_dec : forall a b : K, {a = b} + {a <> b}).

Local Abbreviation keys c := (map fst c).
Local Abbreviation differs k := (fun k' => if eq_dec k' k then false else true).
Local Abbreviation outside ks :=
  (fun k' => if in_dec eq_dec k' ks then false else true).

Lemma counter_get_incr (c : @Counter K) (k k' : K) :
  counter_get eq_dec (counter_incr eq_dec c k) k'
  = counter_get eq_dec c k' + (if eq_dec k' k then 1 else 0).
Proof.
  induction c as [|[k0 v] c IH]; simpl.
  - destruct (eq_dec k' k); lia.
  - destruct (eq_dec k k0) as [->|Hk]; simpl.
    + destruct (eq_dec k' k0); lia.
    + destruct (eq_dec k' k0) as [->|Hk'].
      * destruct (eq_dec k0 k); [congruence|lia].
      * apply IH.
Qed.

Lemma counter_get_fold (l : list K) (c : @Counter K) (k : K) :
  counter_get eq_dec (fold_left (counter_incr eq_dec) l c) k
  = counter_get eq_dec c k + count eq_dec l k.
Proof.
  unfold count. revert c. induction l as [|a l IH]; intros c; simpl.
  - lia.
  - rewrite IH, counter_get_incr.
    destruct (eq_dec k a), (eq_dec a k); subst; try congruence; lia.
Qed.

Lemma keys_incr (c : @Counter K) (k : K) :
  keys (counter_incr eq_dec c k)
  = if in_dec eq_dec k (keys c) then keys c else keys c ++ [k].
Proof.
  induction c as [|[k0 v] c IH]; simpl; [reflexivity|].
  destruct (eq_dec k k0) as [->|Hk]; simpl.
  - destruct (eq_dec k0 k0); [reflexivity|congruence].
  - rewrite IH. destruct (eq_dec k0 k); [congruence|].
    now destruct (in_dec eq_dec k (keys c)).
Qed.

Lemma filter_filter_implies {A : Type} (f g : A -> bool) (l : list A) :
  (forall x, f x = true -> g x = true) ->
  filter f (filter g l) = filter f l.
Proof.
  intros H. induction l as [|a l IH]; simpl; [reflexivity|].
  destruct (g a) eqn:Eg; simpl.
  - now rewrite IH.
  - destruct (f a) eqn:Ef; [|exact IH].
    apply H in Ef. congruence.
Qed.

Lemma filter_outside_snoc (ks : list K) (k : K) (l : list K) :
  filter (outside (ks ++ [k])) l = filter (outside ks) (filter (differs k) l).
Proof.
  induction l as [|a l IH]; simpl; [reflexivity|].
  destruct (eq_dec a k) as [->|Ha]; simpl.
  - destruct (in_dec eq_dec k (ks ++ [k])) as [_|Hn]; [exact IH|].
    exfalso. apply Hn, in_or_app. right. now left.
  - rewrite IH.
    destruct (in_dec eq_dec a (ks ++ [k])) as [Hi|Hn],
             (in_dec eq_dec a ks) as [Hi'|Hn']; try reflexivity.
    + apply in_app_or in Hi. destruct Hi as [?|[?|[]]]; congruence.
    + exfalso. apply Hn, in_or_app. now left.
Qed.

Lemma keys_fold (l : list K) (c : @Counter K) :
  keys (fold_left (counter_incr eq_dec) l c)
  = keys c ++ filter (outside (keys c)) (observed eq_dec l).
Proof.
  revert c. induction l as [|k l IH]; intros c; simpl.
  - now rewrite app_nil_r.
  - rewrite IH, keys_incr.
    destruct (in_dec eq_dec k (keys c)) as [Hin|Hout].
    + f_equal. symmetry. apply filter_filter_implies.
      intros x Hx. destruct (eq_dec x k) as [->|]; [|reflexivity].
      now destruct (in_dec eq_dec k (keys c)).
    + rewrite <- app_assoc. simpl. now rewrite filter_outside_snoc.
Qed.

Lemma In_observed (l : list K) (k : K) : In k (observed eq_dec l) <-> In k l.
Proof.
  induction l as [|a l IH]; simpl; [tauto|].
  rewrite filter_In, IH. destruct (eq_dec k a) as [->|Hk].
  - intuition.
  - intuition congruence.
Qed.

Lemma NoDup_observed (l : list K) : NoDup (observed eq_dec l).
Proof.
  induction l as [|a l IH]; simpl; constructor.
  - rewrite filter_In. intros [_ H]. destruct (eq_dec a a); congruence.
  - now apply NoDup_filter.
Qed.

Lemma keys_counter_of (l : list K) :
  keys (counter_of eq_dec l) = observed eq_dec l.
Proof.
  unfold counter_of. rewrite keys_fold. simpl.
  induction (observed eq_dec l) as [|a o IH]; simpl; congruence.
Qed.

(** A counter is determined by its keys and the counts looked up at them. *)
Lemma counter_items (c : @Counter K) :
  NoDup (keys c) -> c = map (fun k => (k, counter_get eq_dec c k)) (keys c).
Proof.
  induction c as [|[k v] c IH]; intros Hnd; simpl; [reflexivity|].
  inversion Hnd as [|? ? Hk Hnd']; subst.
  destruct (eq_dec k k); [|congruence]. f_equal.
  rewrite (IH Hnd') at 1. apply map_ext_in. intros k' Hk'.
  destruct (eq_dec k' k); [congruence|reflexivity].
Qed.

Lemma counter_get_counter_of (l : list K) (k : K) :
  counter_get eq_dec (counter_of eq_dec l) k = count eq_dec l k.
Proof. unfold counter_of. now rewrite counter_get_fold. Qed.

(** [Counter(l).items()]: the distinct members of [l] in the order of their
    first occurrence, each with the number of its occurrences. *)
Lemma counter_of_items (l : list K) :
  counter_of eq_dec l
  = map (fun k => (k, count eq_dec l k)) (observed eq_dec l).
Proof.
  rewrite (counter_items (counter_of eq_dec l)) at 1.
  - rewrite keys_counter_of. apply map_ext. intros k.
    now rewrite counter_get_counter_of.
  - rewrite keys_counter_of. apply NoDup_observed.
Qed.

Lemma count_pos_In (l : list K) (k : K) : 0 < count eq_dec l k <-> In k l.
Proof.
  unfold count. rewrite (count_occ_In eq_dec). lia.
Qed.

End CounterFacts.

(** ** The estimators *)

Section EstimatorFacts.

Context {F : Type} {FO : Float F}.

Lemma py_truediv_int_nonzero (a b : Z) :
  b <> 0 -> py_truediv_int a b = Return (frequency a b).
Proof.
  intros Hb. unfold py_truediv_int. now destruct (Z.eqb_spec b 0).
Qed.

Lemma mi_loop_sum_terms (pairs keys : list (Z * Z)) (mi : F) :
  pairs <> [] ->
  mi_loop (Z.of_nat (length pairs))
          (counter_of Z.eq_dec (map fst pairs))
          (counter_of Z.eq_dec (map snd pairs))
          (map (fun k => (k, count pair_eq_dec pairs k)) keys) mi
  = sum_terms (plug_in_term pairs) keys mi.
Proof.
  intros Hne.
  assert (HN : Z.of_nat (length pairs) <> 0) by (destruct pairs; [congruence|cbn; lia]).
  revert mi. induction keys as [|[x y] keys IH]; intros mi; [reflexivity|].
  cbn [map mi_loop sum_terms].
  rewrite !py_truediv_int_nonzero by assumption. cbn [bind].
  rewrite !counter_get_counter_of.
  unfold plug_in_term. cbn [fst snd].
  destruct (py_truediv_float _ _) as [q|e]; cbn [bind]; [|reflexivity].
  destruct (flog2 q) as [l|e]; cbn [bind]; [|reflexivity].
  apply IH.
Qed.

(** C7: for a non-empty sequence of pairs [empirical_mi] is the plug-in
    estimate: the sum of [p(x,y) * log2(p(x,y) / (p(x) * p(y)))] over the
    distinct observed pairs, each taken once, with the empirical frequencies
    (counts over the sample size); a pair that was not observed has no
    term. *)
Theorem empirical_mi_plug_in (pairs : list (Z * Z)) :
  pairs <> [] ->
  empirical_mi pairs = plug_in_mi pairs /\
  NoDup (observed pair_eq_dec pairs) /\
  (forall xy, In xy (observed pair_eq_dec pairs)
              <-> 0 < count pair_eq_dec pairs xy).
Proof.
  intros Hne. split; [|split].
  - unfold empirical_mi, plug_in_mi. rewrite (counter_of_items pair_eq_dec).
    now apply mi_loop_sum_terms.
  - apply NoDup_observed.
  - intros xy. now rewrite In_observed, count_pos_In.
Qed.

(** C10: on the empty sequence [empirical_mi] returns 0.0; no division is
    reached and nothing is raised. *)
Theorem empirical_mi_empty : empirical_mi [] = Return (of_int 0).
Proof. reflexivity. Qed.

Variable zlib_compress : list Z -> Z -> list Z.

(** C6, as the program has it: called with no sample, [sci_via_compression]
    checks nothing; it compresses the two empty buffers and fails at the
    division by the sample count. *)
Theorem sci_via_compression_empty (n : Z) (rot90_map : list Z) :
  sci_via_compression zlib_compress [] n rot90_map
  = py_truediv_float_int (fmul (of_int 0) (of_int 8)) 0 /\
  sci_via_compression zlib_compress [] n rot90_map = Raise ZeroDivisionError.
Proof.
  unfold sci_via_compression. cbn [sci_pack bind fst snd length].
  rewrite Z.sub_diag. split; reflexivity.
Qed.

End EstimatorFacts.

Lemma empirical_mi_plug_in_witness :
  empirical_mi (F := fexpr) [(0, 0); (0, 1); (0, 0)]
  = plug_in_mi [(0, 0); (0, 1); (0, 0)] /\
  NoDup (observed pair_eq_dec [(0, 0); (0, 1); (0, 0)]) /\
  (forall xy, In xy (observed pair_eq_dec [(0, 0); (0, 1); (0, 0)])
              <-> 0 < count pair_eq_dec [(0, 0); (0, 1); (0, 0)] xy).
Proof.
  apply (empirical_mi_plug_in (F := fexpr) [(0, 0); (0, 1); (0, 0)]).
  discriminate.
Defined.

(** The claim C6 read on the program: the call would be turned down by a
    check ahead of the division, so it would not end in the division's own
    [ZeroDivisionError].  It does. *)
Lemma sci_empty_input_reaches_division :
  ~ (exists e,
        sci_via_compression (F := fexpr) (fun _ _ => zlib_empty_stream) []
                            3 (rotate90_indices 3) = Raise e /\
        e <> ZeroDivisionError).
Proof.
  intros (e & He & Hne). cbv in He. congruence.
Qed.

(** * Further properties of the program *)

(** ** Indexing and [apply_map] *)

Lemma py_index_wrap {A : Type} (vec : list A) (i : Z) :
  - Z.of_nat (length vec) <= i < 0 ->
  py_index vec i = py_index vec (i + Z.of_nat (length vec)).
Proof.
  intros Hi. unfold py_index. cbv zeta.
  assert (E1 : (i <? 0) = true) by (apply Z.ltb_lt; lia).
  assert (E2 : (i + Z.of_nat (length vec) <? 0) = false)
    by (apply Z.ltb_ge; lia).
  now rewrite E1, !E2.
Qed.

Lemma py_index_outside {A : Type} (vec : list A) (i : Z) :
  i < - Z.of_nat (length vec) \/ Z.of_nat (length vec) <= i ->
  py_index vec i = Raise IndexError.
Proof.
  intros Hi. unfold py_index. cbv zeta.
  destruct (Z.ltb_spec i 0).
  - assert (E : (i + Z.of_nat (length vec) <? 0) = true)
      by (apply Z.ltb_lt; lia).
    now rewrite E.
  - assert (E1 : (i <? 0) = false) by (apply Z.ltb_ge; lia).
    assert (E2 : (Z.of_nat (length vec) <=? i) = true)
      by (apply Z.leb_le; lia).
    now rewrite E1, E2.
Qed.

Lemma py_index_inside {A : Type} (vec : list A) (i : Z) :
  - Z.of_nat (length vec) <= i < Z.of_nat (length vec) ->
  exists v, py_index vec i = Return v.
Proof.
  intros Hi. destruct vec as [|d vec]; [cbn in Hi; lia|].
  destruct (Z_lt_le_dec i 0).
  - rewrite py_index_wrap by lia. eexists. apply (py_index_in _ _ d). lia.
  - eexists. apply (py_index_in _ _ d). lia.
Qed.

Lemma py_index_Return {A : Type} (vec : list A) (i : Z) (v : A) :
  py_index vec i = Return v <->
  - Z.of_nat (length vec) <= i < Z.of_nat (length vec) /\
  nth_error vec (wrap_index (Z.of_nat (length vec)) i) = Some v.
Proof.
  unfold py_index, wrap_index.
  set (len := Z.of_nat (length vec)).
  set (j := if i <? 0 then i + len else i).
  assert (Hj : 0 <= j < len <-> - len <= i < len)
    by (subst j; destruct (Z.ltb_spec i 0); lia).
  destruct (Z.ltb_spec j 0) as [Hlt|Hge]; cbn [orb].
  - split; [discriminate|]. intros [Hi _]. lia.
  - destruct (Z.leb_spec len j) as [Hle|Hlt].
    + split; [discriminate|]. intros [Hi _]. lia.
    + destruct (nth_error vec (Z.to_nat j)) as [w|] eqn:E.
      * split.
        -- intros [= ->]. split; [lia|reflexivity].
        -- now intros [_ [= ->]].
      * apply nth_error_None in E. subst len. lia.
Qed.

Lemma apply_map_Forall2 (vec index_map out : list Z) :
  apply_map vec index_map = Return out <->
  Forall2 (fun i v => py_index vec i = Return v) index_map out.
Proof.
  revert out. induction index_map as [|i rest IH]; intros out; simpl.
  - split.
    + intros [= <-]. constructor.
    + intros H. now inversion H.
  - destruct (py_index vec i) as [v|e] eqn:Ei; cbn [bind].
    + destruct (apply_map vec rest) as [vs|e] eqn:Er; cbn [bind].
      * split.
        -- intros [= <-]. constructor; [assumption|]. now apply IH.
        -- intros H. inversion H as [|? w ? ws Hw Hws]; subst.
           apply IH in Hws. congruence.
      * split; [discriminate|].
        intros H. inversion H as [|? w ? ws Hw Hws]; subst.
        apply IH in Hws. discriminate.
    + split; [discriminate|].
      intros H. inversion H as [|? w ? ws Hw Hws]; subst. congruence.
Qed.

Lemma Forall2_nth_error {A B : Type} (R : A -> B -> Prop) (l : list A)
  (l' : list B) :
  Forall2 R l l' ->
  forall k a, nth_error l k = Some a ->
              exists b, nth_error l' k = Some b /\ R a b.
Proof.
  induction 1 as [|x y l l' Hxy _ IH]; intros k a Hk.
  - destruct k; discriminate.
  - destruct k as [|k]; simpl in *.
    + injection Hk as <-. eauto.
    + now apply IH.
Qed.

(** X1: when [apply_map] returns, the result has as many entries as the index
    map, and entry [i] of the result is the entry of the input at the index
    the map holds at [i]: [out[i] = vec[index_map[i]]]. *)
Theorem apply_map_entries (vec index_map out : list Z) :
  apply_map vec index_map = Return out ->
  length out = length index_map /\
  (forall i j, py_index index_map i = Return j ->
               py_index out i = py_index vec j).
Proof.
  intros H. apply apply_map_Forall2 in H.
  pose proof (Forall2_length H) as Hlen. split; [now symmetry|].
  intros i j Hi. apply py_index_Return in Hi. destruct Hi as [Hr Hn].
  destruct (Forall2_nth_error _ _ _ H _ _ Hn) as (v & Hv & Hj).
  rewrite Hj. apply py_index_Return. rewrite <- Hlen. now split.
Qed.

Lemma apply_map_entries_witness :
  length [30; 10; 30] = length [2; 0; -1] /\
  (forall i j, py_index [2; 0; -1] i = Return j ->
               py_index [30; 10; 30] i = py_index [10; 20; 30] j).
Proof. apply (apply_map_entries [10; 20; 30] [2; 0; -1]). reflexivity. Defined.

Lemma apply_map_inside (vec index_map : list Z) :
  Forall (fun i => - Z.of_nat (length vec) <= i < Z.of_nat (length vec))
         index_map ->
  exists out, apply_map vec index_map = Return out.
Proof.
  induction 1 as [|i rest Hi _ [out IH]]; simpl.
  - now eexists.
  - destruct (py_index_inside vec i Hi) as [v ->]. rewrite IH. now eexists.
Qed.

Lemma apply_map_raises (vec index_map : list Z) (e : exn) :
  apply_map vec index_map = Raise e -> e = IndexError.
Proof.
  induction index_map as [|i rest IH]; simpl; [discriminate|].
  destruct (Z_lt_le_dec i (- Z.of_nat (length vec))) as [Hlo|Hlo].
  - rewrite py_index_outside by lia. cbn. congruence.
  - destruct (Z_lt_le_dec i (Z.of_nat (length vec))) as [Hhi|Hhi].
    + destruct (py_index_inside vec i ltac:(lia)) as [v ->]. cbn [bind].
      destruct (apply_map vec rest) as [vs|e'].
      * discriminate.
      * cbn. intros [= <-]. now apply IH.
    + rewrite py_index_outside by lia. cbn. congruence.
Qed.

Lemma apply_map_outside (vec index_map : list Z) :
  Exists (fun i => i < - Z.of_nat (length vec) \/ Z.of_nat (length vec) <= i)
         index_map ->
  apply_map vec index_map = Raise IndexError.
Proof.
  intros H. destruct (apply_map vec index_map) as [out|e] eqn:E.
  - exfalso. apply apply_map_Forall2 in E.
    induction E as [|i v rest out Hv _ IH]; inversion H; subst.
    + rewrite py_index_outside in Hv by assumption. discriminate.
    + now apply IH.
  - f_equal. eapply apply_map_raises, E.
Qed.

(** X2: [apply_map] returns exactly when every index of the map lies in
    [-len(vec), len(vec)); otherwise it raises [IndexError], and never
    another exception. *)
Theorem apply_map_IndexError (vec index_map : list Z) :
  let len := Z.of_nat (length vec) in
  (Forall (fun i => - len <= i < len) index_map ->
   exists out, apply_map vec index_map = Return out) /\
  (Exists (fun i => i < - len \/ len <= i) index_map ->
   apply_map vec index_map = Raise IndexError) /\
  (forall e, apply_map vec index_map = Raise e -> e = IndexError).
Proof.
  cbn zeta. split; [|split].
  - apply apply_map_inside.
  - apply apply_map_outside.
  - intros e. apply apply_map_raises.
Qed.

(** ** Grids of the wrong size *)

Lemma last_index_in_map (n : Z) : 1 <= n -> In (n * n - 1) (rotate90_indices n).
Proof.
  intros Hn. apply (Permutation_in (l := range (n * n))).
  - symmetry. apply rotate90_indices_perm. lia.
  - apply In_range. nia.
Qed.

Lemma apply_map_too_short (n : Z) (g : list Z) :
  1 <= n -> Z.of_nat (length g) < n * n ->
  apply_map g (rotate90_indices n) = Raise IndexError.
Proof.
  intros Hn Hlen. apply apply_map_outside, Exists_exists.
  exists (n * n - 1). split; [now apply last_index_in_map|lia].
Qed.

Lemma apply_map_too_long (n : Z) (g : list Z) :
  n * n <= Z.of_nat (length g) ->
  apply_map g (rotate90_indices n)
  = Return (rot n (firstn (Z.to_nat (n * n)) g)).
Proof.
  intros Hlen. rewrite apply_map_in_range.
  - f_equal. unfold rot. apply map_ext_in. intros i Hi.
    pose proof (rotate90_indices_bounds n) as Hb.
    rewrite Forall_forall in Hb. specialize (Hb i Hi).
    rewrite nth_firstn.
    destruct (Nat.ltb_spec (Z.to_nat i) (Z.to_nat (n * n))); [reflexivity|lia].
  - eapply Forall_impl; [|apply rotate90_indices_bounds].
    cbn. intros i Hi. lia.
Qed.

(** X3: with the index map of [n >= 1], a tuple with fewer than [n * n]
    entries makes [apply_map], [canonical_representative] and [orbit_size]
    raise [IndexError]; a tuple with more entries is accepted, and the
    entries past the first [n * n] are dropped from the rotated tuple. *)
Theorem wrong_size_grid (n : Z) (g : list Z) :
  1 <= n ->
  let m := rotate90_indices n in
  (Z.of_nat (length g) < n * n ->
   apply_map g m = Raise IndexError /\
   canonical_representative g n m = Raise IndexError /\
   orbit_size g n m = Raise IndexError) /\
  (n * n <= Z.of_nat (length g) ->
   apply_map g m = apply_map (firstn (Z.to_nat (n * n)) g) m /\
   exists out, apply_map g m = Return out /\ Z.of_nat (length out) = n * n).
Proof.
  intros Hn m. subst m. split.
  - intros Hlen. unfold canonical_representative, orbit_size.
    rewrite apply_map_too_short by assumption. repeat split.
  - intros Hlen. rewrite apply_map_too_long by assumption. split.
    + symmetry. apply apply_map_rot. unfold is_grid.
      rewrite firstn_length_le; lia.
    + eexists. split; [reflexivity|]. apply is_grid_rot. lia.
Qed.

Lemma wrong_size_grid_witness :
  (Z.of_nat (length [1; 0; 1]) < 2 * 2 ->
   apply_map [1; 0; 1] (rotate90_indices 2) = Raise IndexError /\
   canonical_representative [1; 0; 1] 2 (rotate90_indices 2) = Raise IndexError /\
   orbit_size [1; 0; 1] 2 (rotate90_indices 2) = Raise IndexError) /\
  (2 * 2 <= Z.of_nat (length [1; 0; 1]) ->
   apply_map [1; 0; 1] (rotate90_indices 2)
   = apply_map (firstn (Z.to_nat (2 * 2)) [1; 0; 1]) (rotate90_indices 2) /\
   exists out, apply_map [1; 0; 1] (rotate90_indices 2) = Return out /\
               Z.of_nat (length out) = 2 * 2).
Proof. apply (wrong_size_grid 2 [1; 0; 1]). lia. Defined.

(** ** Composing rotations *)

Lemma iter_rot_period (n : Z) (q r : nat) (g : list Z) :
  0 <= n -> is_grid n g ->
  Nat.iter (4 * q + r) (rot n) g = Nat.iter r (rot n) g.
Proof.
  intros Hn Hg. induction q as [|q IH]; [reflexivity|].
  replace (4 * S q + r)%nat with ((4 * q + r) + 4)%nat by lia.
  rewrite Nat.iter_add.
  change (Nat.iter 4 (rot n) g) with (rot n (rot n (rot n (rot n g)))).
  now rewrite (rot_order4 n g Hn Hg).
Qed.

Lemma iter_rot_mod (n : Z) (c : nat) (g : list Z) :
  0 <= n -> is_grid n g ->
  Nat.iter c (rot n) g = Nat.iter (c mod 4) (rot n) g.
Proof.
  intros Hn Hg.
  replace (Nat.iter c (rot n) g)
    with (Nat.iter (4 * (c / 4) + c mod 4) (rot n) g)
    by now rewrite <- Nat.div_mod_eq.
  now apply iter_rot_period.
Qed.

(** X4: on a grid, rotating by [j] and then by [k] is rotating by [j + k],
    for all integers [j] and [k]; so rotating by [- k] undoes rotating by
    [k]. *)
Theorem rotate_compose (n : Z) (g : list Z) (j k : Z) :
  1 <= n -> is_grid n g ->
  let m := rotate90_indices n in
  (do g' <- rotate g n j m; rotate g' n k m) = rotate g n (j + k) m /\
  (do g' <- rotate g n k m; rotate g' n (- k) m) = Return g.
Proof.
  intros Hn Hg m. subst m. assert (Hn0 : 0 <= n) by lia.
  assert (Hadd : forall a b,
    (do g' <- rotate g n a (rotate90_indices n);
     rotate g' n b (rotate90_indices n))
    = rotate g n (a + b) (rotate90_indices n)).
  { intros a b. rewrite !rotate_rot by assumption. cbn [bind].
    rewrite rotate_rot by auto with grid. f_equal.
    rewrite <- Nat.iter_add.
    rewrite iter_rot_mod by assumption. f_equal.
    pose proof (Z.mod_pos_bound a 4 ltac:(lia)).
    pose proof (Z.mod_pos_bound b 4 ltac:(lia)).
    pose proof (Z.mod_pos_bound (a + b) 4 ltac:(lia)).
    apply Nat2Z.inj. rewrite Nat2Z.inj_mod, Nat2Z.inj_add, !Z2Nat.id by lia.
    change (Z.of_nat 4) with 4. rewrite Z.add_comm. symmetry. apply Z.add_mod. lia. }
  split; [apply Hadd|].
  rewrite Hadd, Z.add_opp_diag_r. now rewrite rotate_rot.
Qed.

Lemma rotate_compose_witness :
  (do g' <- rotate [1; 2; 3; 4] 2 3 (rotate90_indices 2);
   rotate g' 2 (-5) (rotate90_indices 2))
  = rotate [1; 2; 3; 4] 2 (3 + -5) (rotate90_indices 2) /\
  (do g' <- rotate [1; 2; 3; 4] 2 (-5) (rotate90_indices 2);
   rotate g' 2 (- -5) (rotate90_indices 2)) = Return [1; 2; 3; 4].
Proof. apply (rotate_compose 2 [1; 2; 3; 4] 3 (-5)); [lia|reflexivity]. Defined.

Lemma sigma_twice (n i : Z) :
  0 < n -> 0 <= i < n * n -> sigma n (sigma n i) = n * n - 1 - i.
Proof.
  intros Hn Hi. destruct (sigma_div_mod n i Hn Hi) as [D M].
  unfold sigma at 1. rewrite M, D.
  pose proof (Z.div_mod i n ltac:(lia)). lia.
Qed.

(** X5: two quarter turns reverse the flat grid: [rotate(g, n, 2, m)] is [g]
    read backwards. *)
Theorem rotate_half_turn (n : Z) (g : list Z) :
  1 <= n -> is_grid n g ->
  rotate g n 2 (rotate90_indices n) = Return (rev g).
Proof.
  intros Hn Hg. rewrite rotate_rot by (assumption || lia).
  change (Nat.iter (Z.to_nat (2 mod 4)) (rot n) g) with (rot n (rot n g)).
  f_equal.
  apply (nth_ext _ _ 0 0).
  - rewrite length_rev. pose proof (is_grid_rot n (rot n g) ltac:(lia)) as H.
    unfold is_grid in *. lia.
  - intros i Hi.
    pose proof (is_grid_rot n (rot n g) ltac:(lia)) as H.
    unfold is_grid in H, Hg.
    assert (Hz : 0 <= Z.of_nat i < n * n) by lia.
    rewrite rev_nth by lia.
    rewrite <- (Nat2Z.id i) at 1.
    rewrite !nth_rot by (try lia; apply sigma_bounds; lia).
    rewrite sigma_twice by lia. f_equal. lia.
Qed.

Lemma rotate_half_turn_witness :
  rotate [1; 2; 3; 4; 5; 6; 7; 8; 9] 3 2 (rotate90_indices 3)
  = Return (rev [1; 2; 3; 4; 5; 6; 7; 8; 9]).
Proof.
  apply (rotate_half_turn 3 [1; 2; 3; 4; 5; 6; 7; 8; 9]); [lia|reflexivity].
Defined.

(** ** Encoding and decoding *)

Lemma length_int_to_bits (v bits : Z) :
  length (int_to_bits v bits) = Z.to_nat bits.
Proof. unfold int_to_bits. now rewrite length_map, length_range. Qed.

Lemma Forall_int_to_bits (v bits : Z) : Forall is_bit (int_to_bits v bits).
Proof.
  unfold int_to_bits. apply Forall_forall. intros b Hb.
  apply in_map_iff in Hb. destruct Hb as (i & <- & _). apply land_1_bit.
Qed.

Lemma bits_to_int_int_to_bits_nat (k : nat) (v : Z) :
  bits_to_int (int_to_bits v (Z.of_nat k)) = v mod 2 ^ Z.of_nat k.
Proof.
  revert v. induction k as [|k IH]; intros v.
  - cbn. now rewrite Z.mod_1_r.
  - rewrite int_to_bits_succ, bits_to_int_cons, IH.
    rewrite length_int_to_bits, Nat2Z.id.
    rewrite (is_bit_mod _ (land_1_bit _)), land_1_mod.
    rewrite Z.shiftr_div_pow2 by lia.
    assert (Hp : 0 < 2 ^ Z.of_nat k) by (apply Z.pow_pos_nonneg; lia).
    rewrite Z.mod_mod by lia.
    rewrite Nat2Z.inj_succ, Z.pow_succ_r by lia.
    rewrite (Z.mul_comm 2), Z.rem_mul_r by lia. lia.
Qed.

(** X6: for [bits >= 0], [int_to_bits(v, bits)] is a tuple of [bits] entries,
    each 0 or 1, and encoding it gives [v mod 2^bits]: the value itself when
    [0 <= v < 2^bits], its low bits otherwise (also for a negative [v]). *)
Theorem int_to_bits_decodes (v bits : Z) :
  0 <= bits ->
  Z.of_nat (length (int_to_bits v bits)) = bits /\
  Forall is_bit (int_to_bits v bits) /\
  bits_to_int (int_to_bits v bits) = v mod 2 ^ bits /\
  (0 <= v < 2 ^ bits -> bits_to_int (int_to_bits v bits) = v).
Proof.
  intros Hb.
  assert (E : bits_to_int (int_to_bits v bits) = v mod 2 ^ bits).
  { rewrite <- (Z2Nat.id bits Hb). apply bits_to_int_int_to_bits_nat. }
  repeat split.
  - rewrite length_int_to_bits. lia.
  - apply Forall_int_to_bits.
  - exact E.
  - intros Hv. rewrite E. now apply Z.mod_small.
Qed.

Lemma int_to_bits_decodes_witness :
  Z.of_nat (length (int_to_bits (-3) 4)) = 4 /\
  Forall is_bit (int_to_bits (-3) 4) /\
  bits_to_int (int_to_bits (-3) 4) = -3 mod 2 ^ 4 /\
  (0 <= -3 < 2 ^ 4 -> bits_to_int (int_to_bits (-3) 4) = -3).
Proof. apply (int_to_bits_decodes (-3) 4). lia. Defined.

Lemma bits_to_int_mod (l : list Z) :
  bits_to_int (map (fun b => b mod 2) l) = bits_to_int l.
Proof.
  rewrite <- (bits_to_int_land l). f_equal. apply map_ext. intros b.
  now rewrite land_1_mod.
Qed.

Lemma Forall_is_bit_mod (l : list Z) : Forall is_bit (map (fun b => b mod 2) l).
Proof.
  apply Forall_forall. intros b Hb. apply in_map_iff in Hb.
  destruct Hb as (v & <- & _). rewrite <- land_1_mod. apply land_1_bit.
Qed.

(** X7: [bits_to_int] of a tuple of [k] integers lies in [0, 2^k) and reads
    only the parity of each entry: two tuples of one length have the same
    encoding exactly when their entries agree modulo 2. *)
Theorem bits_to_int_parity (a b : list Z) :
  length a = length b ->
  0 <= bits_to_int a < 2 ^ Z.of_nat (length a) /\
  (bits_to_int a = bits_to_int b
   <-> map (fun v => v mod 2) a = map (fun v => v mod 2) b).
Proof.
  intros Hlen. split; [apply bits_to_int_bounds|]. split.
  - intros E. apply bits_to_int_inj.
    + now rewrite !length_map.
    + apply Forall_is_bit_mod.
    + apply Forall_is_bit_mod.
    + now rewrite !bits_to_int_mod.
  - intros E. rewrite <- (bits_to_int_mod a), <- (bits_to_int_mod b).
    now rewrite E.
Qed.

Lemma bits_to_int_parity_witness :
  0 <= bits_to_int [2; 1; -1] < 2 ^ Z.of_nat (length [2; 1; -1]) /\
  (bits_to_int [2; 1; -1] = bits_to_int [0; 3; 1]
   <-> map (fun v => v mod 2) [2; 1; -1] = map (fun v => v mod 2) [0; 3; 1]).
Proof. apply (bits_to_int_parity [2; 1; -1] [0; 3; 1]). reflexivity. Defined.

(** ** The representative and the cost *)

(** X8: on any grid of integers the representative is one of the four
    rotations, and no rotation is smaller than it in the order of tuples. *)
Theorem canonical_representative_least (n : Z) (g : list Z) :
  1 <= n -> is_grid n g ->
  let m := rotate90_indices n in
  exists c,
    canonical_representative g n m = Return c /\
    (exists k, 0 <= k < 4 /\ rotate g n k m = Return c) /\
    (forall k gk, rotate g n k m = Return gk -> tuple_ltb gk c = false).
Proof.
  intros Hn Hg m. subst m. assert (Hn0 : 0 <= n) by lia.
  exists (canon n g). split; [now apply canonical_representative_canon|].
  split.
  - destruct (canon_in_orbit n g) as (j & Hj & E).
    exists (Z.of_nat j). split; [lia|]. rewrite rotate_rot by assumption.
    rewrite Z.mod_small by lia. now rewrite Nat2Z.id, E.
  - intros k gk Hk. rewrite rotate_rot in Hk by assumption.
    injection Hk as <-.
    rewrite <- (canon_iter_rot n (Z.to_nat (k mod 4)) g Hn0 Hg).
    apply py_min_lower_bound. now left.
Qed.

Lemma canonical_representative_least_witness :
  exists c,
    canonical_representative [5; -2; 7; 0] 2 (rotate90_indices 2) = Return c /\
    (exists k, 0 <= k < 4 /\
               rotate [5; -2; 7; 0] 2 k (rotate90_indices 2) = Return c) /\
    (forall k gk, rotate [5; -2; 7; 0] 2 k (rotate90_indices 2) = Return gk ->
                  tuple_ltb gk c = false).
Proof.
  apply (canonical_representative_least 2 [5; -2; 7; 0]); [lia|reflexivity].
Defined.

Lemma invariant_cost_iter_rot (n : Z) (j : nat) (g : list Z) :
  0 <= n -> is_grid n g ->
  invariant_cost (Nat.iter j (rot n) g) n = invariant_cost g n.
Proof.
  intros Hn Hg. induction j as [|j IH]; simpl; [reflexivity|].
  rewrite invariant_cost_rot; auto with grid.
Qed.

(** X9: the cost is invariant under the rotations: every [rotate(g, n, k, m)]
    and the canonical representative of [g] have the cost of [g]. *)
Theorem invariant_cost_invariant (n : Z) (g : list Z) :
  1 <= n -> is_grid n g ->
  let m := rotate90_indices n in
  (forall k gk, rotate g n k m = Return gk ->
                invariant_cost gk n = invariant_cost g n) /\
  (forall c, canonical_representative g n m = Return c ->
             invariant_cost c n = invariant_cost g n).
Proof.
  intros Hn Hg m. subst m. assert (Hn0 : 0 <= n) by lia. split.
  - intros k gk Hk. rewrite rotate_rot in Hk by assumption.
    injection Hk as <-. now apply invariant_cost_iter_rot.
  - intros c Hc. rewrite canonical_representative_canon in Hc by assumption.
    injection Hc as <-. now apply invariant_cost_canon.
Qed.

Lemma invariant_cost_invariant_witness :
  (forall k gk, rotate [1; 1; 0; 1] 2 k (rotate90_indices 2) = Return gk ->
                invariant_cost gk 2 = invariant_cost [1; 1; 0; 1] 2) /\
  (forall c, canonical_representative [1; 1; 0; 1] 2 (rotate90_indices 2)
             = Return c ->
             invariant_cost c 2 = invariant_cost [1; 1; 0; 1] 2).
Proof.
  apply (invariant_cost_invariant 2 [1; 1; 0; 1]); [lia|reflexivity].
Defined.

Lemma py_sum_bits (x : list Z) :
  Forall is_bit x -> py_sum x = Z.of_nat (count_occ Z.eq_dec x 1).
Proof.
  induction 1 as [|b x Hb _ IH]; [reflexivity|].
  rewrite py_sum_cons, IH. cbn [count_occ].
  destruct Hb as [->| ->]; destruct (Z.eq_dec _ 1); try congruence; lia.
Qed.

(** X10: the cost of any tuple of integers lies in 0..4, also when the sum is
    negative; on a tuple of bits it is the number of entries 1, modulo 5. *)
Theorem invariant_cost_popcount (x : list Z) (n : Z) :
  0 <= invariant_cost x n <= 4 /\
  (Forall is_bit x ->
   invariant_cost x n = Z.of_nat (count_occ Z.eq_dec x 1) mod 5).
Proof.
  split.
  - pose proof (invariant_cost_bounds x n). lia.
  - intros Hx. unfold invariant_cost. now rewrite py_sum_bits.
Qed.

(** ** Orbit sizes and symmetry *)

(** The value [orbit_size] returns, from the encodings of the grid, of its
    quarter turn and of its half turn. *)
Lemma orbit_size_value (n : Z) (g : list Z) :
  0 <= n -> is_grid n g ->
  orbit_size g n (rotate90_indices n)
  = Return (if bits_to_int g =? bits_to_int (rot n g) then 1
            else if bits_to_int g =? bits_to_int (rot n (rot n g)) then 2
                 else 4).
Proof.
  intros Hn0 Hg. unfold orbit_size.
  rewrite apply_map_rot by assumption. cbn [bind].
  rewrite apply_map_rot by auto with grid. cbn [bind].
  rewrite apply_map_rot by auto with grid. cbn [bind].
  rewrite apply_map_rot by auto with grid. cbn [bind].
  f_equal.
  pose proof (bits_to_int_rot_iff n g (rot n g) Hn0 Hg
                ltac:(auto with grid)) as I1.
  pose proof (bits_to_int_rot_iff n (rot n g) (rot n (rot n g)) Hn0
                ltac:(auto with grid) ltac:(auto with grid)) as I2.
  pose proof (bits_to_int_rot_iff n (rot n (rot n (rot n g))) (rot n (rot n g))
                Hn0 ltac:(auto with grid) ltac:(auto with grid)) as I3.
  pose proof (bits_to_int_rot_iff n g (rot n (rot n g)) Hn0 Hg
                ltac:(auto with grid)) as I4.
  rewrite (rot_order4 n g Hn0 Hg) in I3.
  set (e0 := bits_to_int g) in *.
  set (e1 := bits_to_int (rot n g)) in *.
  set (e2 := bits_to_int (rot n (rot n g))) in *.
  set (e3 := bits_to_int (rot n (rot n (rot n g)))) in *.
  clearbody e0 e1 e2 e3.
  unfold empty_set. cbn [set_add].
  destruct (Z.eqb_spec e0 e1), (Z.eqb_spec e0 e2);
    repeat (destruct (Z.eq_dec _ _); cbn [set_add length]);
    try reflexivity; exfalso; lia.
Qed.

(** X11: on a grid of bits the orbit size tells the symmetry of the grid: it
    is 1 exactly when a quarter turn leaves the grid unchanged, 2 exactly when
    a quarter turn changes it and a half turn does not, and 4 exactly when a
    half turn changes it. *)
Theorem orbit_size_symmetry (n : Z) (g : list Z) :
  1 <= n -> bit_grid n g ->
  let m := rotate90_indices n in
  exists s,
    orbit_size g n m = Return s /\
    (s = 1 <-> rotate g n 1 m = Return g) /\
    (s = 2 <-> rotate g n 1 m <> Return g /\ rotate g n 2 m = Return g) /\
    (s = 4 <-> rotate g n 2 m <> Return g).
Proof.
  intros Hn [Hg Bg] m. subst m. assert (Hn0 : 0 <= n) by lia.
  rewrite orbit_size_value, !rotate_rot by assumption.
  change (Nat.iter (Z.to_nat (1 mod 4)) (rot n) g) with (rot n g).
  change (Nat.iter (Z.to_nat (2 mod 4)) (rot n) g) with (rot n (rot n g)).
  assert (E1 : bits_to_int g = bits_to_int (rot n g) <-> rot n g = g).
  { split; [|now intros ->]. intros E. symmetry.
    apply bits_to_int_inj; auto using Forall_rot.
    apply (length_is_grid n); auto with grid. }
  assert (E2 : bits_to_int g = bits_to_int (rot n (rot n g))
               <-> rot n (rot n g) = g).
  { split; [|now intros ->]. intros E. symmetry.
    apply bits_to_int_inj; auto using Forall_rot with grid.
    apply (length_is_grid n); auto with grid. }
  assert (H12 : rot n g = g -> rot n (rot n g) = g) by (intros H; now rewrite !H).
  eexists. split; [reflexivity|].
  destruct (Z.eqb_spec (bits_to_int g) (bits_to_int (rot n g))) as [A|A];
    [|destruct (Z.eqb_spec (bits_to_int g) (bits_to_int (rot n (rot n g))))
        as [B|B]].
  - apply E1 in A. pose proof (H12 A) as A2.
    repeat split; intros; try lia; try congruence;
      repeat match goal with H : _ /\ _ |- _ => destruct H end; congruence.
  - apply E2 in B. assert (A' : rot n g <> g) by (intros H; apply A, E1, H).
    repeat split; intros; try lia; try congruence;
      repeat match goal with H : _ /\ _ |- _ => destruct H end; congruence.
  - assert (A' : rot n g <> g) by (intros H; apply A, E1, H).
    assert (B' : rot n (rot n g) <> g) by (intros H; apply B, E2, H).
    repeat split; intros; try lia; try congruence;
      repeat match goal with H : _ /\ _ |- _ => destruct H end; congruence.
Qed.

Lemma orbit_size_symmetry_witness :
  exists s,
    orbit_size [0; 1; 1; 0] 2 (rotate90_indices 2) = Return s /\
    (s = 1 <-> rotate [0; 1; 1; 0] 2 1 (rotate90_indices 2)
               = Return [0; 1; 1; 0]) /\
    (s = 2 <-> rotate [0; 1; 1; 0] 2 1 (rotate90_indices 2)
               <> Return [0; 1; 1; 0] /\
               rotate [0; 1; 1; 0] 2 2 (rotate90_indices 2)
               = Return [0; 1; 1; 0]) /\
    (s = 4 <-> rotate [0; 1; 1; 0] 2 2 (rotate90_indices 2)
               <> Return [0; 1; 1; 0]).
Proof.
  apply (orbit_size_symmetry 2 [0; 1; 1; 0]); [lia|].
  split; [reflexivity|]. repeat constructor; unfold is_bit; lia.
Defined.

Lemma orbit_size_rot (n : Z) (g : list Z) :
  0 <= n -> is_grid n g ->
  orbit_size (rot n g) n (rotate90_indices n)
  = orbit_size g n (rotate90_indices n).
Proof.
  intros Hn Hg. rewrite !orbit_size_value by auto with grid. f_equal.
  pose proof (bits_to_int_rot_iff n g (rot n g) Hn Hg
                ltac:(auto with grid)) as I1.
  pose proof (bits_to_int_rot_iff n g (rot n (rot n g)) Hn Hg
                ltac:(auto with grid)) as I2.
  repeat match goal with |- context [?a =? ?b] =>
    destruct (Z.eqb_spec a b) end; try reflexivity; exfalso; tauto.
Qed.

Lemma orbit_size_iter_rot (n : Z) (j : nat) (g : list Z) :
  0 <= n -> is_grid n g ->
  orbit_size (Nat.iter j (rot n) g) n (rotate90_indices n)
  = orbit_size g n (rotate90_indices n).
Proof.
  intros Hn Hg. induction j as [|j IH]; simpl; [reflexivity|].
  rewrite orbit_size_rot; auto with grid.
Qed.

(** X12: the orbit size is the same for every member of the orbit: for each
    rotation of a grid and for its canonical representative; and it depends
    on the entries only through [b & 1]. *)
Theorem orbit_size_invariant (n : Z) (g : list Z) :
  1 <= n -> is_grid n g ->
  let m := rotate90_indices n in
  (forall k gk, rotate g n k m = Return gk ->
                orbit_size gk n m = orbit_size g n m) /\
  (forall c, canonical_representative g n m = Return c ->
             orbit_size c n m = orbit_size g n m) /\
  orbit_size (map (fun b => Z.land b 1) g) n m = orbit_size g n m.
Proof.
  intros Hn Hg m. subst m. assert (Hn0 : 0 <= n) by lia. split; [|split].
  - intros k gk Hk. rewrite rotate_rot in Hk by assumption.
    injection Hk as <-. now apply orbit_size_iter_rot.
  - intros c Hc. rewrite canonical_representative_canon in Hc by assumption.
    injection Hc as <-. destruct (canon_in_orbit n g) as (j & _ & ->).
    now apply orbit_size_iter_rot.
  - rewrite !orbit_size_value by auto using is_grid_map.
    rewrite !rot_map by auto with grid.
    now rewrite !bits_to_int_land.
Qed.

Lemma orbit_size_invariant_witness :
  (forall k gk, rotate [0; 3; 1; 0] 2 k (rotate90_indices 2) = Return gk ->
                orbit_size gk 2 (rotate90_indices 2)
                = orbit_size [0; 3; 1; 0] 2 (rotate90_indices 2)) /\
  (forall c, canonical_representative [0; 3; 1; 0] 2 (rotate90_indices 2)
             = Return c ->
             orbit_size c 2 (rotate90_indices 2)
             = orbit_size [0; 3; 1; 0] 2 (rotate90_indices 2)) /\
  orbit_size (map (fun b => Z.land b 1) [0; 3; 1; 0]) 2 (rotate90_indices 2)
  = orbit_size [0; 3; 1; 0] 2 (rotate90_indices 2).
Proof. apply (orbit_size_invariant 2 [0; 3; 1; 0]); [lia|reflexivity]. Defined.

Lemma rot_repeat (n v : Z) :
  0 <= n -> rot n (repeat v (Z.to_nat (n * n))) = repeat v (Z.to_nat (n * n)).
Proof.
  intros Hn. unfold rot.
  rewrite (map_ext_in _ (fun _ => v)).
  - rewrite map_const, length_rotate90_indices. f_equal. lia.
  - intros i Hi. pose proof (rotate90_indices_bounds n) as Hb.
    rewrite Forall_forall in Hb. specialize (Hb i Hi).
    apply nth_repeat_lt. lia.
Qed.

(** X13: a grid whose entries are all the same integer is fixed by the
    rotation: [apply_map] returns it unchanged, it is its own canonical
    representative, and its orbit size is 1. *)
Theorem constant_grid_fixed (n v : Z) :
  1 <= n ->
  let m := rotate90_indices n in
  let g := repeat v (Z.to_nat (n * n)) in
  apply_map g m = Return g /\
  canonical_representative g n m = Return g /\
  orbit_size g n m = Return 1.
Proof.
  intros Hn m g. subst m g.
  assert (Hg : is_grid n (repeat v (Z.to_nat (n * n))))
    by (unfold is_grid; rewrite repeat_length; nia).
  split; [|split].
  - rewrite apply_map_rot by assumption. now rewrite rot_repeat by lia.
  - rewrite canonical_representative_canon by (lia || assumption).
    unfold canon. rewrite !rot_repeat by lia. unfold py_min. cbn [fold_left].
    now rewrite !tuple_ltb_irrefl.
  - rewrite orbit_size_value by (lia || assumption).
    rewrite !rot_repeat by lia. now rewrite Z.eqb_refl.
Qed.

Lemma constant_grid_fixed_witness :
  apply_map (repeat 1 (Z.to_nat (3 * 3))) (rotate90_indices 3)
  = Return (repeat 1 (Z.to_nat (3 * 3))) /\
  canonical_representative (repeat 1 (Z.to_nat (3 * 3))) 3 (rotate90_indices 3)
  = Return (repeat 1 (Z.to_nat (3 * 3))) /\
  orbit_size (repeat 1 (Z.to_nat (3 * 3))) 3 (rotate90_indices 3) = Return 1.
Proof. apply (constant_grid_fixed 3 1). lia. Defined.

(** ** Sizes below 1 *)

Lemma rotate90_indices_nonpos (n : Z) : n <= 0 -> rotate90_indices n = [].
Proof.
  intros Hn. pose proof (length_rotate90_indices n) as Hl.
  replace (Z.to_nat n) with 0%nat in Hl by lia.
  now destruct (rotate90_indices n).
Qed.

Lemma py_min_nil (x : list Z) : py_min x [[]; []; []] = [].
Proof. destruct x; reflexivity. Qed.

(** X14: a size [n <= 0] is not turned down: the index map is empty, so
    every rotation of any tuple is the empty tuple, the canonical
    representative of any tuple is the empty tuple, the orbit size is 1 or 2,
    and the orbit scan of [brute_force_search] stops after one evaluation. *)
Theorem nonpositive_size (n : Z) (x : list Z) (samples : list (list Z)) :
  n <= 0 ->
  let m := rotate90_indices n in
  m = [] /\
  apply_map x m = Return [] /\
  canonical_representative x n m = Return [] /\
  (exists s, orbit_size x n m = Return s /\ (s = 1 \/ s = 2)) /\
  (exists evals_raw, brute_force_search (x :: samples) n = Return (evals_raw, 1)).
Proof.
  intros Hn m. subst m. rewrite (rotate90_indices_nonpos n Hn).
  split; [reflexivity|]. split; [reflexivity|]. split; [|split].
  - unfold canonical_representative. cbn [apply_map bind].
    now rewrite py_min_nil.
  - unfold orbit_size. cbn [apply_map bind]. eexists. split; [reflexivity|].
    unfold empty_set. cbn [set_add].
    change (bits_to_int []) with 0.
    repeat (destruct (Z.eq_dec _ _); cbn [set_add length]); cbn; lia.
  - unfold brute_force_search. rewrite (rotate90_indices_nonpos n Hn).
    cbn [orbit_scan]. unfold canonical_representative.
    cbn [apply_map bind]. rewrite py_min_nil. cbn. now eexists.
Qed.

Lemma nonpositive_size_witness :
  rotate90_indices (-2) = [] /\
  apply_map [1; 0; 1; 1] (rotate90_indices (-2)) = Return [] /\
  canonical_representative [1; 0; 1; 1] (-2) (rotate90_indices (-2)) = Return [] /\
  (exists s, orbit_size [1; 0; 1; 1] (-2) (rotate90_indices (-2)) = Return s /\
             (s = 1 \/ s = 2)) /\
  (exists evals_raw,
      brute_force_search ([1; 0; 1; 1] :: [[1; 1; 1; 1]]) (-2)
      = Return (evals_raw, 1)).
Proof. apply (nonpositive_size (-2) [1; 0; 1; 1] [[1; 1; 1; 1]]). lia. Defined.

(** ** What the two scans count *)

Lemma improves_nonzero_open (c : Z) (best : option Z) (x : list Z) (n : Z) :
  c = invariant_cost x n -> c <> 0 -> open_best best ->
  open_best (if improves c best then Some c else best).
Proof.
  intros Hc Hne Hb. destruct (improves c best); [|assumption].
  exact (open_best_update c best x n Hc Hne).
Qed.

Lemma raw_scan_nonzero_prefix (n : Z) (pre rest : list (list Z)) :
  Forall (fun x => invariant_cost x n <> 0) pre ->
  forall best evals_raw, open_best best ->
    exists best',
      open_best best' /\
      raw_scan (pre ++ rest) n best evals_raw
      = raw_scan rest n best' (evals_raw + Z.of_nat (length pre)).
Proof.
  induction 1 as [|x pre Hx _ IH]; intros best er Hb.
  - exists best. split; [assumption|]. cbn. now rewrite Z.add_0_r.
  - cbn [app raw_scan length].
    destruct (Z.eqb_spec (invariant_cost x n) 0) as [?|_]; [contradiction|].
    destruct (IH (if improves (invariant_cost x n) best
                  then Some (invariant_cost x n) else best) (er + 1)
                 (improves_nonzero_open _ best x n eq_refl Hx Hb))
      as (best' & Hb' & E).
    exists best'. split; [assumption|].
    rewrite Nat2Z.inj_succ.
    replace (er + Z.succ (Z.of_nat (length pre)))
      with (er + 1 + Z.of_nat (length pre)) by lia.
    rewrite <- E. now destruct (improves (invariant_cost x n) best).
Qed.

Lemma raw_scan_zero (n : Z) (x : list Z) (post : list (list Z))
  (best : option Z) (evals_raw : Z) :
  invariant_cost x n = 0 -> open_best best ->
  raw_scan (x :: post) n best evals_raw = evals_raw + 1.
Proof.
  intros Hx Hb. cbn [raw_scan]. rewrite Hx, improves_zero by assumption.
  reflexivity.
Qed.

(** X15: the raw count is the position of the first sample of cost 0: when
    [brute_force_search] returns, [evals_raw] is [len(samples)] if no sample
    has cost 0, and otherwise one more than the number of samples in front of
    the first sample of cost 0. *)
Theorem evals_raw_first_zero (n : Z) (samples : list (list Z))
  (evals_raw evals_orbit : Z) :
  brute_force_search samples n = Return (evals_raw, evals_orbit) ->
  (Forall (fun x => invariant_cost x n <> 0) samples ->
   evals_raw = Z.of_nat (length samples)) /\
  (forall pre x post,
      samples = pre ++ x :: post ->
      Forall (fun y => invariant_cost y n <> 0) pre ->
      invariant_cost x n = 0 ->
      evals_raw = Z.of_nat (length pre) + 1).
Proof.
  unfold brute_force_search. intros H.
  destruct (orbit_scan samples n (rotate90_indices n) (empty_set Z) 0 None)
    as [eo|e]; [|discriminate].
  cbn [bind] in H. injection H as <- _. split.
  - intros Hall.
    destruct (raw_scan_nonzero_prefix n samples [] Hall None 0 I)
      as (best' & _ & E).
    rewrite app_nil_r in E. rewrite E. reflexivity.
  - intros pre x post -> Hpre Hx.
    destruct (raw_scan_nonzero_prefix n pre (x :: post) Hpre None 0 I)
      as (best' & Hb' & E).
    rewrite E, raw_scan_zero by assumption. lia.
Qed.

Lemma evals_raw_first_zero_witness :
  (Forall (fun x => invariant_cost x 2 <> 0)
          [[1; 0; 0; 0]; [0; 1; 0; 0]; [0; 0; 0; 0]; [1; 1; 0; 0]] ->
   3 = Z.of_nat (length [[1; 0; 0; 0]; [0; 1; 0; 0]; [0; 0; 0; 0]; [1; 1; 0; 0]]))
  /\
  (forall pre x post,
      [[1; 0; 0; 0]; [0; 1; 0; 0]; [0; 0; 0; 0]; [1; 1; 0; 0]]
      = pre ++ x :: post ->
      Forall (fun y => invariant_cost y 2 <> 0) pre ->
      invariant_cost x 2 = 0 ->
      3 = Z.of_nat (length pre) + 1).
Proof.
  apply (evals_raw_first_zero 2
           [[1; 0; 0; 0]; [0; 1; 0; 0]; [0; 0; 0; 0]; [1; 1; 0; 0]] 3 2).
  reflexivity.
Defined.

Lemma orbit_scan_mono (n : Z) (rot90_map : list Z) (samples : list (list Z)) :
  forall seen evals_orbit best2 evals_orbit',
    orbit_scan samples n rot90_map seen evals_orbit best2 = Return evals_orbit' ->
    evals_orbit <= evals_orbit'.
Proof.
  induction samples as [|x rest IH]; intros seen eo best2 eo' H.
  - cbn in H. injection H as <-. lia.
  - cbn [orbit_scan] in H.
    destruct (canonical_representative x n rot90_map) as [rep|e];
      [|discriminate].
    cbn [bind] in H.
    destruct (set_mem Z.eq_dec (bits_to_int rep) seen).
    + now apply IH in H.
    + destruct (improves (invariant_cost rep n) best2).
      * destruct (invariant_cost rep n =? 0).
        -- injection H as <-. lia.
        -- apply IH in H. lia.
      * apply IH in H. lia.
Qed.

(** X16: the case [evals_orbit == 0] that [main] guards before dividing is
    the case of an empty sample list: whenever [brute_force_search] returns,
    each of the two counts is 0 exactly when there is no sample. *)
Theorem evals_zero_iff_no_sample (n : Z) (samples : list (list Z))
  (evals_raw evals_orbit : Z) :
  brute_force_search samples n = Return (evals_raw, evals_orbit) ->
  (evals_orbit = 0 <-> samples = []) /\ (evals_raw = 0 <-> samples = []).
Proof.
  unfold brute_force_search. intros H.
  destruct (orbit_scan samples n (rotate90_indices n) (empty_set Z) 0 None)
    as [eo|e] eqn:E; [|discriminate].
  cbn [bind] in H. injection H as <- <-.
  destruct samples as [|x rest].
  - cbn in E. injection E as <-. cbn. tauto.
  - split; (split; [|discriminate]); intros H0; exfalso.
    + cbn [orbit_scan] in E.
      destruct (canonical_representative x n (rotate90_indices n)) as [rep|e];
        [|discriminate].
      cbn [bind set_mem empty_set improves] in E.
      destruct (invariant_cost rep n =? 0).
      * injection E as <-. lia.
      * apply orbit_scan_mono in E. lia.
    + cbn [raw_scan improves] in H0.
      destruct (Z.eqb_spec (invariant_cost x n) 0) as [Hx|Hx]; [lia|].
      assert (Hm : forall l best er, er <= raw_scan l n best er).
      { induction l as [|y l IH]; intros best er; cbn [raw_scan]; [lia|].
        destruct (improves (invariant_cost y n) best).
        - destruct (invariant_cost y n =? 0); [lia|].
          specialize (IH (Some (invariant_cost y n)) (er + 1)). lia.
        - specialize (IH best (er + 1)). lia. }
      specialize (Hm rest (Some (invariant_cost x n)) (0 + 1)). lia.
Qed.

Lemma evals_zero_iff_no_sample_witness :
  (2 = 0 <-> [[1; 0; 0; 0]; [0; 1; 0; 0]; [0; 0; 0; 0]; [1; 1; 0; 0]] = []) /\
  (3 = 0 <-> [[1; 0; 0; 0]; [0; 1; 0; 0]; [0; 0; 0; 0]; [1; 1; 0; 0]] = []).
Proof.
  apply (evals_zero_iff_no_sample 2
           [[1; 0; 0; 0]; [0; 1; 0; 0]; [0; 0; 0; 0]; [1; 1; 0; 0]] 3 2).
  reflexivity.
Defined.

Lemma set_add_old (a : Z) (s : set Z) : In a s -> set_add Z.eq_dec a s = s.
Proof.
  induction s as [|b s IH]; intros H; [destruct H|].
  cbn [set_add]. destruct (Z.eq_dec a b); [reflexivity|].
  f_equal. apply IH. destruct H; congruence.
Qed.

Lemma length_set_add_new (a : Z) (s : set Z) :
  ~ In a s -> length (set_add Z.eq_dec a s) = S (length s).
Proof.
  induction s as [|b s IH]; intros H; [reflexivity|].
  cbn [set_add]. destruct (Z.eq_dec a b) as [->|Hne].
  - exfalso. apply H. now left.
  - cbn [length]. f_equal. apply IH. intros Hin. apply H. now right.
Qed.

Lemma In_add_all (cs : list Z) (s : set Z) (c : Z) :
  In c (add_all cs s) <-> In c cs \/ In c s.
Proof.
  unfold add_all. revert s. induction cs as [|a cs IH]; intros s; simpl.
  - tauto.
  - rewrite IH, set_add_iff. intuition congruence.
Qed.

Lemma NoDup_add_all (cs : list Z) (s : set Z) : NoDup s -> NoDup (add_all cs s).
Proof.
  unfold add_all. revert s. induction cs as [|a cs IH]; intros s H; simpl.
  - assumption.
  - apply IH. now apply set_add_nodup.
Qed.

Lemma length_add_all_nodup (cs : list Z) :
  length (add_all cs []) = length (nodup Z.eq_dec cs).
Proof.
  apply Permutation_length, NoDup_Permutation.
  - apply NoDup_add_all. constructor.
  - apply NoDup_nodup.
  - intros c. rewrite In_add_all, nodup_In. simpl. tauto.
Qed.

Lemma add_all_app (cs cs' : list Z) (s : set Z) :
  add_all (cs ++ cs') s = add_all cs' (add_all cs s).
Proof. unfold add_all. apply fold_left_app. Qed.

Lemma orbit_scan_nonzero_prefix (n : Z) (pre rest : list (list Z)) :
  0 <= n -> Forall (is_grid n) pre ->
  Forall (fun x => invariant_cost x n <> 0) pre ->
  forall seen evals_orbit best2, open_best best2 ->
    exists best2',
      open_best best2' /\
      orbit_scan (pre ++ rest) n (rotate90_indices n) seen evals_orbit best2
      = orbit_scan rest n (rotate90_indices n)
          (add_all (map (orbit_code n) pre) seen)
          (evals_orbit
           + (Z.of_nat (length (add_all (map (orbit_code n) pre) seen))
              - Z.of_nat (length seen)))
          best2'.
Proof.
  intros Hn Hgrid. induction Hgrid as [|x pre Hx _ IH];
    intros Hcost seen eo best2 Hb.
  - exists best2. split; [assumption|]. cbn. f_equal. lia.
  - inversion Hcost as [|? ? Hc Hcost']; subst.
    cbn [app orbit_scan map].
    rewrite canonical_representative_canon by assumption. cbn [bind].
    fold (orbit_code n x).
    change (add_all (orbit_code n x :: map (orbit_code n) pre) seen)
      with (add_all (map (orbit_code n) pre)
                    (set_add Z.eq_dec (orbit_code n x) seen)).
    destruct (set_mem Z.eq_dec (orbit_code n x) seen) eqn:Hmem.
    + apply set_mem_correct1 in Hmem.
      rewrite (set_add_old _ _ Hmem). now apply IH.
    + apply set_mem_complete1 in Hmem.
      rewrite (invariant_cost_canon n x Hn Hx).
      destruct (Z.eqb_spec (invariant_cost x n) 0) as [?|_]; [contradiction|].
      destruct (IH Hcost' (set_add Z.eq_dec (orbit_code n x) seen) (eo + 1)
                  (if improves (invariant_cost x n) best2
                   then Some (invariant_cost x n) else best2)
                  (improves_nonzero_open _ best2 x n eq_refl Hc Hb))
        as (best2' & Hb' & E).
      exists best2'. split; [assumption|].
      rewrite length_set_add_new in E by assumption.
      replace (eo + (Z.of_nat (length (add_all (map (orbit_code n) pre)
                        (set_add Z.eq_dec (orbit_code n x) seen)))
                     - Z.of_nat (length seen)))
        with (eo + 1 + (Z.of_nat (length (add_all (map (orbit_code n) pre)
                        (set_add Z.eq_dec (orbit_code n x) seen)))
                     - Z.of_nat (S (length seen)))) by lia.
      rewrite <- E. now destruct (improves (invariant_cost x n) best2).
Qed.

Lemma orbit_code_fresh (n : Z) (pre : list (list Z)) (x : list Z) :
  0 <= n -> Forall (bit_grid n) pre ->
  Forall (fun y => invariant_cost y n <> 0) pre ->
  bit_grid n x -> invariant_cost x n = 0 ->
  ~ In (orbit_code n x) (map (orbit_code n) pre).
Proof.
  intros Hn Hpre Hcost [Hx Bx] Hx0 Hin.
  apply in_map_iff in Hin. destruct Hin as (y & E & Hy).
  rewrite Forall_forall in Hpre, Hcost.
  destruct (Hpre y Hy) as [Hgy By]. apply (Hcost y Hy).
  unfold orbit_code in E. apply bits_to_int_inj in E.
  - rewrite <- (invariant_cost_canon n y Hn Hgy), E.
    now rewrite invariant_cost_canon.
  - apply (length_is_grid n); auto with grid.
  - now apply Forall_canon.
  - now apply Forall_canon.
Qed.

Lemma canonical_reps_canon (n : Z) (l reps : list (list Z)) :
  0 <= n -> Forall (is_grid n) l ->
  Forall2 (fun x c => canonical_representative x n (rotate90_indices n)
                      = Return c) l reps ->
  map bits_to_int reps = map (orbit_code n) l.
Proof.
  intros Hn Hl H. induction H as [|x c l reps Hc _ IH]; [reflexivity|].
  inversion Hl as [|? ? Hx Hl']; subst.
  rewrite canonical_representative_canon in Hc by assumption.
  injection Hc as <-. cbn [map]. f_equal. now apply IH.
Qed.

(** X17: on bit grids the orbit count is the number of distinct orbits among
    the samples the raw scan evaluates: the distinct encodings of the
    canonical representatives of all the samples when none has cost 0, and
    otherwise of the samples up to and including the first of cost 0. *)
Theorem evals_orbit_distinct_orbits (n : Z) (samples : list (list Z))
  (evals_raw evals_orbit : Z) :
  1 <= n -> Forall (bit_grid n) samples ->
  brute_force_search samples n = Return (evals_raw, evals_orbit) ->
  let m := rotate90_indices n in
  (forall reps,
      Forall (fun x => invariant_cost x n <> 0) samples ->
      Forall2 (fun x c => canonical_representative x n m = Return c)
              samples reps ->
      evals_orbit = Z.of_nat (length (nodup Z.eq_dec (map bits_to_int reps))))
  /\
  (forall pre x post reps,
      samples = pre ++ x :: post ->
      Forall (fun y => invariant_cost y n <> 0) pre ->
      invariant_cost x n = 0 ->
      Forall2 (fun y c => canonical_representative y n m = Return c)
              (pre ++ [x]) reps ->
      evals_orbit = Z.of_nat (length (nodup Z.eq_dec (map bits_to_int reps)))).
Proof.
  intros Hn Hall H m. subst m. assert (Hn0 : 0 <= n) by lia.
  assert (Hgrids : forall l, Forall (bit_grid n) l -> Forall (is_grid n) l).
  { intros l Hl. eapply Forall_impl; [|exact Hl]. now intros y [Hy _]. }
  unfold brute_force_search in H.
  destruct (orbit_scan samples n (rotate90_indices n) (empty_set Z) 0 None)
    as [eo|e] eqn:E; [|discriminate].
  cbn [bind] in H. injection H as _ <-. split.
  - intros reps Hcost Hreps.
    rewrite (canonical_reps_canon n samples reps Hn0 (Hgrids _ Hall) Hreps).
    destruct (orbit_scan_nonzero_prefix n samples [] Hn0 (Hgrids _ Hall) Hcost
                (empty_set Z) 0 None I) as (b & _ & E').
    rewrite app_nil_r, E in E'. cbn [orbit_scan] in E'. injection E' as ->.
    rewrite <- length_add_all_nodup. unfold empty_set. cbn [length]. lia.
  - intros pre x post reps -> Hcost Hx Hreps.
    apply Forall_app in Hall. destruct Hall as [Hpre Hxs].
    inversion Hxs as [|? ? Hbx _]; subst.
    assert (Hpx : Forall (is_grid n) (pre ++ [x])).
    { apply Forall_app. split; [now apply Hgrids|].
      constructor; [apply Hbx|constructor]. }
    rewrite (canonical_reps_canon n _ reps Hn0 Hpx Hreps).
    destruct (orbit_scan_nonzero_prefix n pre (x :: post) Hn0 (Hgrids _ Hpre)
                Hcost (empty_set Z) 0 None I) as (b & Hb & E').
    rewrite E in E'. cbn [orbit_scan] in E'.
    rewrite canonical_representative_canon in E' by (assumption || apply Hbx).
    cbn [bind] in E'. fold (orbit_code n x) in E'.
    assert (Hfresh : ~ In (orbit_code n x)
                       (add_all (map (orbit_code n) pre) (empty_set Z))).
    { rewrite In_add_all. intros [Hin|[]].
      now apply (orbit_code_fresh n pre x). }
    rewrite (set_mem_complete2 _ _ _ Hfresh) in E'.
    rewrite (invariant_cost_canon n x Hn0 (proj1 Hbx)), Hx in E'.
    rewrite improves_zero in E' by assumption. cbn in E'.
    injection E' as ->.
    rewrite map_app. cbn [map].
    rewrite <- length_add_all_nodup, add_all_app.
    unfold empty_set in *.
    change (add_all [orbit_code n x] (add_all (map (orbit_code n) pre) []))
      with (set_add Z.eq_dec (orbit_code n x)
                    (add_all (map (orbit_code n) pre) [])).
    rewrite length_set_add_new by exact Hfresh.
    cbn [length]. lia.
Qed.

Lemma evals_orbit_distinct_orbits_witness :
  (forall reps,
      Forall (fun x => invariant_cost x 2 <> 0)
             [[1; 0; 0; 0]; [0; 1; 0; 0]; [0; 0; 0; 0]; [1; 1; 0; 0]] ->
      Forall2 (fun x c => canonical_representative x 2 (rotate90_indices 2)
                          = Return c)
              [[1; 0; 0; 0]; [0; 1; 0; 0]; [0; 0; 0; 0]; [1; 1; 0; 0]] reps ->
      2 = Z.of_nat (length (nodup Z.eq_dec (map bits_to_int reps))))
  /\
  (forall pre x post reps,
      [[1; 0; 0; 0]; [0; 1; 0; 0]; [0; 0; 0; 0]; [1; 1; 0; 0]]
      = pre ++ x :: post ->
      Forall (fun y => invariant_cost y 2 <> 0) pre ->
      invariant_cost x 2 = 0 ->
      Forall2 (fun y c => canonical_representative y 2 (rotate90_indices 2)
                          = Return c)
              (pre ++ [x]) reps ->
      2 = Z.of_nat (length (nodup Z.eq_dec (map bits_to_int reps)))).
Proof.
  apply (evals_orbit_distinct_orbits 2
           [[1; 0; 0; 0]; [0; 1; 0; 0]; [0; 0; 0; 0]; [1; 1; 0; 0]] 3 2).
  - lia.
  - repeat constructor; unfold is_bit; lia.
  - reflexivity.
Defined.

(** ** What the group action can raise *)

Lemma rotate_loop_raises (cnt : nat) (vec rot90_map : list Z) (e : exn) :
  rotate_loop cnt vec rot90_map = Raise e -> e = IndexError.
Proof.
  revert vec. induction cnt as [|cnt IH]; intros vec; simpl; [discriminate|].
  destruct (apply_map vec rot90_map) as [out|e'] eqn:E; cbn [bind].
  - apply IH.
  - intros [= <-]. eapply apply_map_raises, E.
Qed.

Ltac step_apply_map H :=
  match type of H with
  | context [apply_map ?v ?m] =>
      let E := fresh "E" in
      destruct (apply_map v m) eqn:E; cbn [bind] in H;
      [|injection H as <-; eapply apply_map_raises, E]
  end.

Lemma canonical_representative_raises (x : list Z) (n : Z)
  (rot90_map : list Z) (e : exn) :
  canonical_representative x n rot90_map = Raise e -> e = IndexError.
Proof.
  unfold canonical_representative. intros H.
  repeat step_apply_map H. discriminate.
Qed.

Lemma orbit_scan_raises (samples : list (list Z)) (n : Z)
  (rot90_map : list Z) (e : exn) :
  forall seen evals_orbit best2,
    orbit_scan samples n rot90_map seen evals_orbit best2 = Raise e ->
    e = IndexError.
Proof.
  induction samples as [|y rest IH]; intros seen eo best2 H; [discriminate|].
  cbn [orbit_scan] in H.
  destruct (canonical_representative y n rot90_map) as [rep|e'] eqn:E;
    cbn [bind] in H.
  - destruct (set_mem Z.eq_dec (bits_to_int rep) seen); [now apply IH in H|].
    destruct (improves (invariant_cost rep n) best2).
    + destruct (invariant_cost rep n =? 0); [discriminate|].
      now apply IH in H.
    + now apply IH in H.
  - injection H as <-. eapply canonical_representative_raises, E.
Qed.

(** X18: whatever the tuple, the size and the index map, the only exception
    [rotate], [canonical_representative], [orbit_size] and
    [brute_force_search] raise is [IndexError]. *)
Theorem group_action_raises_IndexError (x : list Z) (n k : Z)
  (rot90_map : list Z) (samples : list (list Z)) (e : exn) :
  (rotate x n k rot90_map = Raise e -> e = IndexError) /\
  (canonical_representative x n rot90_map = Raise e -> e = IndexError) /\
  (orbit_size x n rot90_map = Raise e -> e = IndexError) /\
  (brute_force_search samples n = Raise e -> e = IndexError).
Proof.
  split; [|split; [|split]].
  - apply rotate_loop_raises.
  - apply canonical_representative_raises.
  - unfold orbit_size. cbv zeta. intros H.
    repeat step_apply_map H. discriminate.
  - unfold brute_force_search. cbv zeta.
    destruct (orbit_scan samples n (rotate90_indices n) (empty_set Z) 0 None)
      as [eo|e'] eqn:E; cbn [bind]; [discriminate|].
    intros [= <-]. eapply orbit_scan_raises, E.
Qed.

(** ** Packing and the compression estimate *)

Lemma to_bytes_fits (v len : Z) :
  0 <= len -> 0 <= v < 256 ^ len ->
  exists bs, to_bytes v len = Return bs /\
             Z.of_nat (length bs) = len /\ Forall is_byte bs.
Proof.
  intros Hlen Hv. unfold to_bytes.
  destruct (Z.ltb_spec len 0); [lia|].
  destruct (Z.ltb_spec v 0); [lia|].
  destruct (Z.leb_spec (256 ^ len) v); [lia|]. cbn [orb].
  eexists. split; [reflexivity|]. split.
  - rewrite length_map, length_range. lia.
  - apply Forall_forall. intros b Hb. apply in_map_iff in Hb.
    destruct Hb as (i & <- & _). unfold is_byte.
    change 255 with (Z.ones 8). rewrite Z.land_ones by lia.
    apply Z.mod_pos_bound. lia.
Qed.

Lemma encoding_fits (n : Z) (x : list Z) :
  is_grid n x -> 0 <= bits_to_int x < 256 ^ ((n * n + 7) / 8).
Proof.
  intros Hx. pose proof (bits_to_int_bounds x) as Hb. rewrite Hx in Hb.
  assert (Hn : 0 <= n * n) by nia.
  assert (Hd : n * n <= 8 * ((n * n + 7) / 8)).
  { pose proof (Z.div_mod (n * n + 7) 8 ltac:(lia)).
    pose proof (Z.mod_pos_bound (n * n + 7) 8 ltac:(lia)). lia. }
  change 256 with (2 ^ 8). rewrite <- Z.pow_mul_r by lia.
  pose proof (Z.pow_le_mono_r 2 (n * n) (8 * ((n * n + 7) / 8)) ltac:(lia) Hd).
  lia.
Qed.

Lemma sci_pack_grids (n : Z) (samples : list (list Z)) :
  0 <= n -> Forall (is_grid n) samples ->
  forall raw0 canon0,
    exists raw' canon',
      sci_pack samples n (rotate90_indices n) ((n * n + 7) / 8) raw0 canon0
      = Return (raw0 ++ raw', canon0 ++ canon') /\
      Z.of_nat (length raw')
      = Z.of_nat (length samples) * ((n * n + 7) / 8) /\
      Z.of_nat (length canon')
      = Z.of_nat (length samples) * ((n * n + 7) / 8) /\
      Forall is_byte raw' /\ Forall is_byte canon'.
Proof.
  intros Hn Hall.
  assert (Hbp : 0 <= (n * n + 7) / 8) by (apply Z.div_pos; nia).
  induction Hall as [|x rest Hx _ IH]; intros raw0 canon0.
  - exists [], []. cbn. rewrite !app_nil_r. repeat split; constructor.
  - cbn [sci_pack].
    rewrite canonical_representative_canon by assumption. cbn [bind].
    destruct (to_bytes_fits (bits_to_int x) _ Hbp (encoding_fits n x Hx))
      as (xb & -> & Lx & Bx).
    destruct (to_bytes_fits (bits_to_int (canon n x)) _ Hbp
                (encoding_fits n _ (is_grid_canon n x Hn Hx)))
      as (cb & -> & Lc & Bc).
    cbn [bind].
    destruct (IH (raw0 ++ xb) (canon0 ++ cb))
      as (raw' & canon' & -> & Lr & Lcn & Br & Bcn).
    exists (xb ++ raw'), (cb ++ canon').
    rewrite !app_assoc. split; [reflexivity|].
    rewrite !length_app, !Forall_app. cbn [length].
    repeat split; try assumption; lia.
Qed.

Section CompressionFacts.

Context {F : Type} {FO : Float F}.
Variable zlib_compress : list Z -> Z -> list Z.

(** X19: for a non-empty sequence of grids of side [n >= 1] (any integer
    entries) [sci_via_compression] raises nothing: every encoding fits in
    [(n * n + 7) // 8] bytes, the two buffers hold that many bytes per
    sample, and the result is the difference of the two compressed lengths,
    times 8.0, over the sample count. *)
Theorem sci_via_compression_returns (n : Z) (samples : list (list Z)) :
  1 <= n -> samples <> [] -> Forall (is_grid n) samples ->
  let m := rotate90_indices n in
  let bytes_per := (n * n + 7) / 8 in
  exists raw canon,
    sci_pack samples n m bytes_per [] [] = Return (raw, canon) /\
    Z.of_nat (length raw) = Z.of_nat (length samples) * bytes_per /\
    Z.of_nat (length canon) = Z.of_nat (length samples) * bytes_per /\
    Forall is_byte raw /\ Forall is_byte canon /\
    sci_via_compression zlib_compress samples n m
    = Return (fdiv (fmul (of_int (compress_length_bytes zlib_compress raw 9
                                  - compress_length_bytes zlib_compress canon 9))
                         (of_int 8))
                   (of_int (Z.of_nat (length samples)))).
Proof.
  intros Hn Hne Hall m bytes_per. subst m bytes_per.
  destruct (sci_pack_grids n samples ltac:(lia) Hall [] [])
    as (raw & canon & E & Lr & Lc & Br & Bc).
  cbn [app] in E. exists raw, canon.
  repeat split; try assumption.
  unfold sci_via_compression. rewrite E. cbn [bind fst snd].
  unfold py_truediv_float_int.
  destruct (Z.eqb_spec (Z.of_nat (length samples)) 0) as [H0|_];
    [|reflexivity].
  destruct samples; [congruence|cbn in H0; lia].
Qed.

(** X20: when every sample is its own canonical representative the two
    buffers are the same bytes, so the estimate is [0 * 8.0 / len(samples)]
    whatever the compressor does. *)
Theorem sci_via_compression_canonical_samples (n : Z)
  (samples : list (list Z)) :
  1 <= n -> samples <> [] -> Forall (is_grid n) samples ->
  Forall (fun x => canonical_representative x n (rotate90_indices n)
                   = Return x) samples ->
  sci_via_compression zlib_compress samples n (rotate90_indices n)
  = Return (fdiv (fmul (of_int 0) (of_int 8))
                 (of_int (Z.of_nat (length samples)))).
Proof.
  intros Hn Hne Hall Hcanon.
  assert (Hsame : forall raw,
    exists buf, sci_pack samples n (rotate90_indices n) ((n * n + 7) / 8)
                         raw raw = Return (buf, buf)).
  { clear Hne. induction Hall as [|x rest Hx _ IH]; intros raw.
    - now exists raw.
    - inversion Hcanon as [|? ? Hc Hcanon']; subst.
      cbn [sci_pack]. rewrite Hc. cbn [bind].
      assert (Hbp : 0 <= (n * n + 7) / 8) by (apply Z.div_pos; nia).
      destruct (to_bytes_fits (bits_to_int x) _ Hbp (encoding_fits n x Hx))
        as (xb & -> & _). cbn [bind]. now apply IH. }
  destruct (Hsame []) as (buf & E).
  unfold sci_via_compression. rewrite E. cbn [bind fst snd].
  rewrite Z.sub_diag. unfold py_truediv_float_int.
  destruct (Z.eqb_spec (Z.of_nat (length samples)) 0) as [H0|_];
    [|reflexivity].
  destruct samples; [congruence|cbn in H0; lia].
Qed.

End CompressionFacts.

Lemma sci_via_compression_returns_witness :
  exists raw canon,
    sci_pack [[0; 1; 0; 0]; [1; 1; 1; 1]] 2 (rotate90_indices 2)
             ((2 * 2 + 7) / 8) [] [] = Return (raw, canon) /\
    Z.of_nat (length raw)
    = Z.of_nat (length [[0; 1; 0; 0]; [1; 1; 1; 1]]) * ((2 * 2 + 7) / 8) /\
    Z.of_nat (length canon)
    = Z.of_nat (length [[0; 1; 0; 0]; [1; 1; 1; 1]]) * ((2 * 2 + 7) / 8) /\
    Forall is_byte raw /\ Forall is_byte canon /\
    sci_via_compression (F := fexpr) (fun data _ => data)
                        [[0; 1; 0; 0]; [1; 1; 1; 1]] 2 (rotate90_indices 2)
    = Return (fdiv (fmul (of_int (compress_length_bytes (fun data _ => data) raw 9
                                  - compress_length_bytes (fun data _ => data)
                                                          canon 9))
                         (of_int 8))
                   (of_int (Z.of_nat (length [[0; 1; 0; 0]; [1; 1; 1; 1]])))).
Proof.
  apply (sci_via_compression_returns (F := fexpr) (fun data _ => data) 2
           [[0; 1; 0; 0]; [1; 1; 1; 1]]).
  - lia.
  - discriminate.
  - repeat constructor.
Defined.

Lemma sci_via_compression_canonical_samples_witness :
  sci_via_compression (F := fexpr) (fun data _ => data)
                      [[0; 0; 0; 1]; [1; 1; 1; 1]] 2 (rotate90_indices 2)
  = Return (fdiv (fmul (of_int 0) (of_int 8))
                 (of_int (Z.of_nat (length [[0; 0; 0; 1]; [1; 1; 1; 1]])))).
Proof.
  apply (sci_via_compression_canonical_samples (F := fexpr)
           (fun data _ => data) 2 [[0; 0; 0; 1]; [1; 1; 1; 1]]).
  - lia.
  - discriminate.
  - repeat constructor.
  - repeat constructor.
Defined.

(** ** The counts behind the frequencies *)

Lemma py_sum_counter_incr {K : Type}
  (eq_dec : forall a b : K, {a = b} + {a <> b}) (c : @Counter K) (k : K) :
  py_sum (map snd (counter_incr eq_dec c k)) = py_sum (map snd c) + 1.
Proof.
  induction c as [|[k' v] c IH]; [reflexivity|].
  cbn [counter_incr]. destruct (eq_dec k k'); cbn [map snd].
  - rewrite !py_sum_cons. lia.
  - rewrite !py_sum_cons, IH. lia.
Qed.

Lemma py_sum_counter_of {K : Type}
  (eq_dec : forall a b : K, {a = b} + {a <> b}) (l : list K) :
  py_sum (map snd (counter_of eq_dec l)) = Z.of_nat (length l).
Proof.
  unfold counter_of.
  assert (H : forall c, py_sum (map snd (fold_left (counter_incr eq_dec) l c))
                        = py_sum (map snd c) + Z.of_nat (length l)).
  { induction l as [|k l IH]; intros c; cbn [fold_left length].
    - lia.
    - rewrite IH, py_sum_counter_incr. lia. }
  now rewrite H.
Qed.

Lemma count_occ_pair_fst (pairs : list (Z * Z)) (x y : Z) :
  (count_occ pair_eq_dec pairs (x, y)
   <= count_occ Z.eq_dec (map fst pairs) x)%nat.
Proof.
  induction pairs as [|[a b] pairs IH]; [reflexivity|].
  cbn [map fst count_occ].
  destruct (pair_eq_dec (a, b) (x, y)) as [E|_], (Z.eq_dec a x) as [?|Hne];
    try lia.
  injection E as -> ->. congruence.
Qed.

Lemma count_occ_pair_snd (pairs : list (Z * Z)) (x y : Z) :
  (count_occ pair_eq_dec pairs (x, y)
   <= count_occ Z.eq_dec (map snd pairs) y)%nat.
Proof.
  induction pairs as [|[a b] pairs IH]; [reflexivity|].
  cbn [map snd count_occ].
  destruct (pair_eq_dec (a, b) (x, y)) as [E|_], (Z.eq_dec b y) as [?|Hne];
    try lia.
  injection E as -> ->. congruence.
Qed.

(** X21: the three counters [empirical_mi] builds are consistent: the keys of
    the joint counter are distinct, every joint count is at least 1 and at
    most the marginal counts of its two components, no marginal count exceeds
    [N], and the joint counts add up to [N]. *)
Theorem empirical_mi_counters (pairs : list (Z * Z)) :
  let N := Z.of_nat (length pairs) in
  let cx := counter_of Z.eq_dec (map fst pairs) in
  let cy := counter_of Z.eq_dec (map snd pairs) in
  let cxy := counter_of pair_eq_dec pairs in
  NoDup (map fst cxy) /\
  (forall x y nxy,
      In ((x, y), nxy) cxy ->
      In (x, y) pairs /\
      1 <= nxy <= counter_get Z.eq_dec cx x /\
      nxy <= counter_get Z.eq_dec cy y /\
      counter_get Z.eq_dec cx x <= N /\
      counter_get Z.eq_dec cy y <= N) /\
  py_sum (map snd cxy) = N.
Proof.
  cbv zeta. split; [|split].
  - rewrite keys_counter_of. apply NoDup_observed.
  - intros x y nxy Hin. rewrite counter_of_items in Hin.
    apply in_map_iff in Hin. destruct Hin as (k & E & Hk).
    injection E as -> <-. apply In_observed in Hk.
    rewrite !counter_get_counter_of. unfold count.
    pose proof (count_occ_pair_fst pairs x y).
    pose proof (count_occ_pair_snd pairs x y).
    pose proof (count_occ_bound Z.eq_dec x (map fst pairs)) as Bx.
    pose proof (count_occ_bound Z.eq_dec y (map snd pairs)) as By.
    rewrite length_map in Bx, By.
    pose proof (proj1 (count_occ_In pair_eq_dec pairs (x, y)) Hk).
    repeat split; try assumption; lia.
  - apply py_sum_counter_of.
Qed.
